(** * mapmaker: a shallow embedding of [mapmaker/__init__.py]

    The development covers the array reshuffling of [montage], the
    physical-coordinate arithmetic of [calc_extent], the overlay loop of
    [make_fig] and the channel probing of [load_stack]; further sections
    cover [clean_path], [get_locations] and the location choice of [cli],
    the glob patterns of [load_stack] and the file names [save_montage]
    writes (in [__main__.py]).

    Modelling conventions.
    - A numpy array is its shape together with its logical contents, a
      function from a full multi-index to the element.  [reshape] and
      [transpose] act on logical C order exactly as numpy specifies them,
      whatever the memory layout of the array.
    - Python floats are modelled as exact rationals [Q]: rounding is not
      modelled.
    - A raised Python exception is an [Err] value of [result]. *)

From Stdlib Require Import List Arith ZArith Lia Bool String Ascii Decimal DecimalNat.
From Stdlib Require Import QArith Qminmax Lqa.
From Stdlib Require Import Sorting.Sorted Sorting.Permutation Sorting.Mergesort.
From Stdlib Require Import Structures.Orders.
Import ListNotations.
Open Scope nat_scope.

(** ** Python exceptions and results *)

Inductive pyerr : Type :=
| AssertionError (msg : string)
| ValueError (msg : string)
| RuntimeError (msg : string).

Inductive result (A : Type) : Type :=
| Ok (a : A)
| Err (e : pyerr).
Arguments Ok {A} a.
Arguments Err {A} e.

Definition bind {A B : Type} (m : result A) (f : A -> result B) : result B :=
  match m with
  | Ok a => f a
  | Err e => Err e
  end.

Notation "x <- m ;; k" := (bind m (fun x => k))
  (at level 61, m at next level, right associativity).

(** [str(n)] of a Python int, in decimal. *)
Fixpoint uint_to_string (d : uint) : string :=
  match d with
  | Nil => EmptyString
  | D0 d => String "0" (uint_to_string d)
  | D1 d => String "1" (uint_to_string d)
  | D2 d => String "2" (uint_to_string d)
  | D3 d => String "3" (uint_to_string d)
  | D4 d => String "4" (uint_to_string d)
  | D5 d => String "5" (uint_to_string d)
  | D6 d => String "6" (uint_to_string d)
  | D7 d => String "7" (uint_to_string d)
  | D8 d => String "8" (uint_to_string d)
  | D9 d => String "9" (uint_to_string d)
  end.

Definition str_nat (n : nat) : string := uint_to_string (Nat.to_uint n).

(** ** numpy arrays *)

Module NumPy.

Record ndarray (A : Type) : Type := mk_ndarray {
  shape : list nat;
  get : list nat -> A
}.
Arguments mk_ndarray {A} shape get.
Arguments shape {A} _.
Arguments get {A} _ _.

(** Number of elements of an array of the given shape. *)
Definition size (s : list nat) : nat := fold_right Nat.mul 1 s.

(** Flat C-order position of a multi-index ([np.ravel_multi_index]). *)
Fixpoint ravel (idx s : list nat) : nat :=
  match idx, s with
  | i :: is, _ :: ds => i * size ds + ravel is ds
  | _, _ => 0
  end.

(** Multi-index of a flat C-order position ([np.unravel_index]). *)
Fixpoint unravel (k : nat) (s : list nat) : list nat :=
  match s with
  | [] => []
  | d :: ds => (k / size ds) mod d :: unravel (k mod size ds) ds
  end.

(** [a.reshape(s)]: same elements in C order, new shape; numpy raises
    [ValueError] when the sizes differ. *)
Definition reshape {A : Type} (a : ndarray A) (s : list nat) : result (ndarray A) :=
  if Nat.eqb (size s) (size (shape a)) then
    Ok (mk_ndarray s (fun I => get a (unravel (ravel I s) (shape a))))
  else Err (ValueError "cannot reshape array").

(** Position of [k] in [l] (only used on permutations of [0 .. n-1]). *)
Fixpoint index_of (k : nat) (l : list nat) : nat :=
  match l with
  | [] => 0
  | x :: l' => if Nat.eqb x k then 0 else S (index_of k l')
  end.

(** [np.transpose(a, perm)]: axis [p] of the result is axis [nth p perm] of
    [a]. *)
Definition transpose {A : Type} (a : ndarray A) (perm : list nat) : ndarray A :=
  mk_ndarray (map (fun p => nth p (shape a) 0) perm)
    (fun J => get a (map (fun k => nth (index_of k perm) J 0)
                          (seq 0 (List.length (shape a))))).

(** Insert [x] at position [n] of [l]. *)
Fixpoint insert_at (n x : nat) (l : list nat) : list nat :=
  match n, l with
  | O, _ => x :: l
  | S n', y :: l' => y :: insert_at n' x l'
  | S _, [] => [x]
  end.

(** The axis order produced by [np.rollaxis(a, axis, start)] for
    [0 <= axis, start <= ndim]: axis [axis] is moved to stand just before
    the axis that was at position [start]. *)
Definition rollaxis_perm (ndim axis start : nat) : list nat :=
  let rest := filter (fun k => negb (Nat.eqb k axis)) (seq 0 ndim) in
  if axis <? start then insert_at (start - 1) axis rest
  else insert_at start axis rest.

Definition rollaxis {A : Type} (a : ndarray A) (axis start : nat) : ndarray A :=
  transpose a (rollaxis_perm (List.length (shape a)) axis start).

End NumPy.

Import NumPy.

(** ** [montage] *)

Definition montage_msg (ntiles dy dx : nat) : string :=
  ("Number of tiles, " ++ str_nat ntiles ++ ", doesn't match montage dimensions ("
  ++ str_nat dy ++ ", " ++ str_nat dx ++ ")")%string.

(** [montage(stack, shape)]: the tuple unpacking of [stack.shape] fails
    unless the stack has four axes. *)
Definition montage {A : Type} (stack : ndarray A) (shp : nat * nat)
  : result (ndarray A) :=
  match shape stack with
  | [c; ntiles; ny; nx] =>
      let '(dy, dx) := shp in
      let new_shape := [c; dy; dx; ny; nx] in
      if Nat.eqb (dy * dx) ntiles then
        reshaped_stack <- reshape stack new_shape ;;
        let reshaped_stack := rollaxis reshaped_stack 2 4 in
        reshape reshaped_stack [c; dy * ny; dx * nx]
      else Err (AssertionError (montage_msg ntiles dy dx))
  | _ => Err (ValueError "not enough values to unpack")
  end.

(** ** [calc_extent] *)

Open Scope Q_scope.

(** A Python int used in float arithmetic. *)
Definition q_of_nat (n : nat) : Q := inject_Z (Z.of_nat n).

(** The default [pixel_size=0.13] of [calc_extent]. *)
Definition default_pixel_size : Q := 13 # 100.

(** [calc_extent(tile0_loc, tile_shape, montage_shape, pixel_size)]
    returns [(left, right, bottom, top)]. *)
Definition calc_extent (tile0_loc : Q * Q) (tile_shape montage_shape : nat * nat)
    (pixel_size : Q) : Q * Q * Q * Q :=
  let '(y0, x0) := tile0_loc in
  let '(ny, nx) := tile_shape in
  let '(ny_tot, nx_tot) :=
    (fst tile_shape * fst montage_shape, snd tile_shape * snd montage_shape)%nat in
  let top := y0 + q_of_nat (Nat.div ny 2) * pixel_size in
  let left := x0 + q_of_nat (Nat.div nx 2) * pixel_size in
  let bottom := top - q_of_nat ny_tot * pixel_size in
  let right := left - q_of_nat nx_tot * pixel_size in
  (left, right, bottom, top).

(** ** The overlay loop of [make_fig] *)

(** The artists [make_fig] adds to the axes on top of the image. *)
Inductive artist : Type :=
| Rectangle (xy : Q * Q) (width height linewidth : Q)
| Annotation (text : string) (xy xytext : Q * Q) (fontsize : Q).

(** [make_rec(y, x, width, height, linewidth)]: a rectangle centred on
    (y, x), anchored at its lower-left corner. *)
Definition make_rec (y x width height linewidth : Q) : artist :=
  Rectangle (x - width / 2, y - height / 2) width height linewidth.

Section MakeFig.

(** [textwrap.fill(text, width)]. *)
Variable fill : string -> nat -> string.

(** [xmax >= x >= xmin and ymax >= y >= ymin], after
    [xmax, xmin, ymin, ymax = extent]. *)
Definition in_range (extent : Q * Q * Q * Q) (y x : Q) : bool :=
  let '(xmax, xmin, ymin, ymax) := extent in
  Qle_bool x xmax && Qle_bool xmin x && (Qle_bool y ymax && Qle_bool ymin y).

(** One iteration of [for title, point in locations.items()], threading the
    list of artists of [ax]. *)
Definition annotate_location (extent : Q * Q * Q * Q) (scalefactor : Q)
    (ax : list artist) (loc : string * (Q * Q)) : list artist :=
  let '(title, (ymm, xmm)) := loc in
  let diameter := 512 * (13 # 100) in
  (* right now y, x points are recorded in mm not um *)
  let y := ymm * 1000 in
  let x := xmm * 1000 in
  if in_range extent y x then
    ax ++ [make_rec y x diameter diameter (Qmax 2 (20 * scalefactor));
           Annotation (fill title 20) (x, y) (x, y + diameter / 2 * (13 # 10))
                      (Qmax 12 (120 * scalefactor))]
  else ax.

(** The artists added by [make_fig] for the locations (a dict, iterated in
    insertion order); the image itself and the file output are not
    modelled. *)
Definition make_fig_overlay (extent : Q * Q * Q * Q)
    (locations : list (string * (Q * Q))) (scalefactor : Q) : list artist :=
  fold_left (annotate_location extent scalefactor) locations [].

End MakeFig.

(** [calc_extent] followed by the overlay of [make_fig], as [save_montage]
    in [__main__.py] chains them, with the pixel size made explicit. *)
Definition overlay_pipeline (fill : string -> nat -> string)
    (tile0_loc : Q * Q) (tile_shape montage_shape : nat * nat) (pixel_size : Q)
    (locations : list (string * (Q * Q))) (scalefactor : Q) : list artist :=
  make_fig_overlay fill (calc_extent tile0_loc tile_shape montage_shape pixel_size)
    locations scalefactor.

Close Scope Q_scope.

(** ** [load_stack] *)

(** Python's [sorted] on str: lexicographic order of code points, a stable
    merge sort. *)
Module StrLe <: TotalLeBool'.
Definition t := string.
Definition leb := String.leb.
Lemma leb_total : forall x y, leb x y = true \/ leb y x = true.
Proof. exact String.leb_total. Qed.
End StrLe.

Module StrSort := Sort StrLe.

Definition sorted : list string -> list string := StrSort.sort.

(** The glob pattern of channel [i]: [top_dir + "*ch{}*.tif".format(i)]. *)
Definition channel_pattern (top_dir : string) (i : nat) : string :=
  (top_dir ++ "*ch" ++ str_nat i ++ "*.tif")%string.

(** A list comprehension [[f(x) for x in l]]: [f] is applied from left to
    right and the first exception propagates. *)
Fixpoint mapM {X Y : Type} (f : X -> result Y) (l : list X) : result (list Y) :=
  match l with
  | [] => Ok []
  | x :: l' => y <- f x ;; ys <- mapM f l' ;; Ok (y :: ys)
  end.

Definition shape_eqb (s1 s2 : list nat) : bool :=
  if list_eq_dec Nat.eq_dec s1 s2 then true else false.

(** The message of the [ValueError] numpy raises for a ragged nested list
    (the detected shape it appends to it is not modelled). *)
Definition asarray_msg : string := "setting an array element with a sequence.".

(** [np.asarray(tiles)] for a list of channels, each a list of 2D arrays
    (numpy >= 1.24): when every channel has as many tiles as the first one
    and every tile has the shape of the first tile, the result has shape
    [(channels, tiles) + tile shape]; otherwise numpy raises [ValueError].
    The last branch, a first channel without tiles, is not reached from
    [load_stack], whose channels all hold a tile. *)
Definition asarray_stack {A : Type} (tiles : list (list (ndarray A))) : result (ndarray A) :=
  match tiles with
  | (t0 :: _) as ch0 :: _ =>
      let m := List.length ch0 in
      let s := shape t0 in
      if forallb (fun ch => Nat.eqb (List.length ch) m &&
                            forallb (fun t => shape_eqb (shape t) s) ch) tiles
      then Ok (mk_ndarray (List.length tiles :: m :: s)
                 (fun idx => match idx with
                             | ch :: t :: rest => get (nth t (nth ch tiles []) t0) rest
                             | _ => get t0 []
                             end))
      else Err (ValueError asarray_msg)
  | _ => Err (ValueError asarray_msg)
  end.

Section LoadStack.

(** [glob.glob(pattern)] on the file system at hand, and the decoding
    [tif.imread] of a tile file, which may raise. *)
Variable glob : string -> list string.
Variable A : Type.
Variable imread : string -> result (ndarray A).

(** [for i in range(start, start + fuel)]: collect the sorted file lists of
    the channels, breaking at the first channel without files. *)
Fixpoint probe_channels (top_dir : string) (fuel i : nat) : list (list string) :=
  match fuel with
  | O => []
  | S fuel' =>
      let subpaths := sorted (glob (channel_pattern top_dir i)) in
      match subpaths with
      | [] => []
      | _ :: _ => subpaths :: probe_channels top_dir fuel' (S i)
      end
  end.

(** [load_stack(top_dir)]: the files are read channel by channel, then
    [np.asarray] stacks the tiles. *)
Definition load_stack (top_dir : string) : result (ndarray A) :=
  let paths := probe_channels top_dir 100 0 in
  match paths with
  | [] => Err (RuntimeError ("No files found in " ++ top_dir)%string)
  | _ :: _ =>
      tiles <- mapM (mapM imread) paths ;;
      asarray_stack tiles
  end.

End LoadStack.

(** A concrete file system for evaluation: [fnmatch] for patterns whose
    only special character is [*], and [glob] as the names of a flat
    listing matching the pattern. *)
Fixpoint fnmatch_list (pat s : list ascii) : bool :=
  match pat with
  | [] => match s with [] => true | _ => false end
  | "*"%char :: pat' =>
      (fix star (s : list ascii) : bool :=
         fnmatch_list pat' s ||
         match s with [] => false | _ :: s' => star s' end) s
  | c :: pat' =>
      match s with
      | [] => false
      | c' :: s' => Ascii.eqb c c' && fnmatch_list pat' s'
      end
  end.

Definition fnmatch (pat s : string) : bool :=
  fnmatch_list (list_ascii_of_string pat) (list_ascii_of_string s).

Definition glob_in (listing : list string) (pat : string) : list string :=
  filter (fnmatch pat) listing.

(** ** Python string helpers *)

(** [c in s] for a character [c]. *)
Fixpoint char_in (c : ascii) (s : string) : bool :=
  match s with
  | EmptyString => false
  | String c' s' => Ascii.eqb c c' || char_in c s'
  end.

(** [needle in hay] for strings. *)
Fixpoint str_contains (needle hay : string) : bool :=
  String.prefix needle hay ||
  match hay with
  | EmptyString => false
  | String _ hay' => str_contains needle hay'
  end.

(** [s.endswith(c)] for a character [c]. *)
Fixpoint ends_with_char (c : ascii) (s : string) : bool :=
  match s with
  | EmptyString => false
  | String c' EmptyString => Ascii.eqb c c'
  | String _ s' => ends_with_char c s'
  end.

(** [s.split(sep)] for a one-character separator: every occurrence splits,
    empty fields are kept. *)
Fixpoint split_on (sep : ascii) (s : string) : list string :=
  match s with
  | EmptyString => [EmptyString]
  | String c s' =>
      let parts := split_on sep s' in
      if Ascii.eqb c sep then EmptyString :: parts
      else match parts with
           | p :: ps => String c p :: ps
           | [] => [String c EmptyString]
           end
  end.

(** [sep.join(parts)]. *)
Fixpoint join_with (sep : string) (parts : list string) : string :=
  match parts with
  | [] => EmptyString
  | [p] => p
  | p :: ps => (p ++ sep ++ join_with sep ps)%string
  end.

(** [l[:-2]]. *)
Definition drop_last_two {A : Type} (l : list A) : list A :=
  firstn (List.length l - 2) l.

(** ** [clean_path] *)

(** [clean_path(path)] on POSIX ([os.path.sep = "/"]), given the result of
    [os.path.abspath]; [None] is the [IndexError] of [split_path[-2]]. *)
Definition clean_path (abspath : string -> string) (path : string) : option string :=
  let split_path := split_on "/" (abspath path) in
  if List.length split_path <? 2 then None
  else
    let name := nth (List.length split_path - 2) split_path EmptyString in
    Some (join_with "_" (drop_last_two (split_on "_" name))).

(** ** Locations: dicts and [get_locations] of [__main__.py] *)

(** A Python dict with string keys, in insertion order. *)
Definition dict (V : Type) : Type := list (string * V).

Fixpoint dict_lookup {V : Type} (k : string) (d : dict V) : option V :=
  match d with
  | [] => None
  | (k', v) :: d' => if String.eqb k k' then Some v else dict_lookup k d'
  end.

(** [d[k] = v]: an existing key keeps its place, a new one goes last. *)
Fixpoint dict_set {V : Type} (k : string) (v : V) (d : dict V) : dict V :=
  match d with
  | [] => [(k, v)]
  | (k', v') :: d' =>
      if String.eqb k k' then (k', v) :: d' else (k', v') :: dict_set k v d'
  end.

(** [d.update(e)]. *)
Definition dict_update {V : Type} (d e : dict V) : dict V :=
  fold_left (fun acc '(k, v) => dict_set k v acc) e d.

(** [os.path.join(path, "")]: adds a trailing separator unless the path is
    empty or already ends with one. *)
Definition path_join_empty (path : string) : string :=
  match path with
  | EmptyString => path
  | _ => if ends_with_char "/" path then path else (path ++ "/")%string
  end.

Section GetLocations.

(** [extract_locations_csv(path)] and [extract_locations(path)], each
    returning a dict from name to [(Y, X)] in mm, or raising (pandas,
    file and parsing errors). *)
Variable extract_locations_csv : string -> result (dict (Q * Q)).
Variable extract_locations : string -> result (dict (Q * Q)).

(** The dict read from one [--location-path] entry. *)
Definition location_source (path : string) : result (dict (Q * Q)) :=
  if str_contains ".csv" path then extract_locations_csv path
  else extract_locations (path_join_empty path).

(** The loop [for path in location_path: sim_locations.update(...)]: an
    exception of a reader ends it. *)
Fixpoint collect_locations (sim_locations : dict (Q * Q)) (location_path : list string)
    : result (dict (Q * Q)) :=
  match location_path with
  | [] => Ok sim_locations
  | path :: rest =>
      e <- location_source path ;;
      collect_locations (dict_update sim_locations e) rest
  end.

(** [get_locations(location_path)] (the [click.echo] output aside). *)
Definition get_locations (location_path : list string) : result (dict (Q * Q)) :=
  sim_locations <- collect_locations [] location_path ;;
  match sim_locations with
  | [] => Err (RuntimeError "No locations found.")
  | _ :: _ => Ok sim_locations
  end.

(** The outcome of choosing the locations in [cli]: [click.confirm] with
    [abort=True] raises [Abort] on a negative answer. *)
Inductive cli_outcome : Type :=
| CliAbort
| CliRaised (e : pyerr)
| CliLocations (d : dict (Q * Q)).

(** [if not location_path and click.confirm(...): sim_locations = dict()
    else: sim_locations = get_locations(location_path)], with the user's
    answer to the prompt. *)
Definition cli_locations (location_path : list string) (answer : bool) : cli_outcome :=
  match location_path with
  | [] => if answer then CliLocations [] else CliAbort
  | _ :: _ =>
      match get_locations location_path with
      | Ok d => CliLocations d
      | Err e => CliRaised e
      end
  end.

End GetLocations.

(** ** Output names of [save_montage] in [cli] *)

(** [p[:p.rfind("/") + 1]], the head that [posixpath.dirname] starts from. *)
Fixpoint dir_head (s : string) : string :=
  match s with
  | EmptyString => EmptyString
  | String c s' =>
      if char_in "/" s' then String c (dir_head s')
      else if Ascii.eqb c "/" then String c EmptyString
      else EmptyString
  end.

(** [s.rstrip("/")]. *)
Fixpoint rstrip_slash (s : string) : string :=
  match s with
  | EmptyString => EmptyString
  | String c s' =>
      let r := rstrip_slash s' in
      if String.eqb r EmptyString && Ascii.eqb c "/" then EmptyString else String c r
  end.

(** [s == "/" * len(s)]. *)
Definition all_slash (s : string) : bool :=
  forallb (fun c => Ascii.eqb c "/") (list_ascii_of_string s).

(** [os.path.dirname(p)] on POSIX. *)
Definition dirname (p : string) : string :=
  let head := dir_head p in
  if negb (String.eqb head EmptyString) && negb (all_slash head)
  then rstrip_slash head else head.

(** [fmt.format] applied to positional string arguments, scanning from
    left to right from automatic field number [k]: ["{{"] and ["}}"] give a
    brace, ["{}"] the next argument; [None] is the exception Python raises
    (IndexError when the arguments run out, ValueError for a stray brace).
    Every other replacement field ([{0}], [{name}], [{:spec}], ...) also
    gives [None].  In [save_montage]'s format string
    [dirname + "_ch{}.jpg"] such a field is always followed by the
    automatic field of the suffix, where Python raises in any case
    (ValueError on switching from manual to automatic numbering, KeyError
    for a name, IndexError for a second automatic field). *)
Fixpoint format_aux (fmt : string) (args : list string) (k : nat) : option string :=
  match fmt with
  | EmptyString => Some EmptyString
  | String c r =>
      if Ascii.eqb c "{" then
        match r with
        | String c' r' =>
            if Ascii.eqb c' "{" then option_map (String "{") (format_aux r' args k)
            else if Ascii.eqb c' "}" then
              match nth_error args k with
              | Some a => option_map (String.append a) (format_aux r' args (S k))
              | None => None
              end
            else None
        | EmptyString => None
        end
      else if Ascii.eqb c "}" then
        match r with
        | String c' r' =>
            if Ascii.eqb c' "}" then option_map (String "}") (format_aux r' args k)
            else None
        | EmptyString => None
        end
      else option_map (String c) (format_aux r args k)
  end.

Definition str_format (fmt : string) (args : list string) : option string :=
  format_aux fmt args 0.

(** [(os.path.dirname(montage_path) + "_ch{}.jpg").format(i)] where
    [montage_path] has gone through [os.path.join(montage_path, "")];
    [None] is the exception [str.format] raises. *)
Definition montage_basename (montage_path : string) (i : nat) : option string :=
  str_format (dirname (path_join_empty montage_path) ++ "_ch{}.jpg") [str_nat i].


(** [s[n:]]. *)
Fixpoint str_drop (n : nat) (s : string) : string :=
  match n, s with
  | 0, _ => s
  | S _, EmptyString => EmptyString
  | S n', String _ s' => str_drop n' s'
  end.

(** [s.replace(old, new)] for a non-empty [old]: occurrences are replaced
    from left to right without overlap; [fuel] bounds the scan. *)
Fixpoint replace_fuel (fuel : nat) (old new s : string) : string :=
  match fuel with
  | 0 => s
  | S f =>
      match s with
      | EmptyString => EmptyString
      | String c s' =>
          if String.prefix old s
          then (new ++ replace_fuel f old new (str_drop (String.length old) s))%string
          else String c (replace_fuel f old new s')
      end
  end.

Definition str_replace (old new s : string) : string :=
  replace_fuel (String.length s) old new s.

(** The file name [save_montage] writes with [--tif]:
    [basename.format(i).replace(".jpg", ".tif")]. *)
Definition montage_tif_name (montage_path : string) (i : nat) : option string :=
  option_map (str_replace ".jpg" ".tif") (montage_basename montage_path i).

(** ** Concrete inputs *)

(** A concrete stack: one channel of six 2 x 2 tiles whose pixels all carry
    distinct values. *)
Definition six_tiles : ndarray nat :=
  mk_ndarray [1; 6; 2; 2] (fun I => ravel I [1; 6; 2; 2]).

(** [textwrap.fill] replaced by the identity, for evaluation. *)
Definition id_fill (s : string) (_ : nat) : string := s.

(** A directory with one tile file for each of the channels 0 .. 99. *)
Definition hundred_channels : list string :=
  map (fun i => ("d/img_ch" ++ str_nat i ++ ".tif")%string) (seq 0 100).

(** Ten tile files in which the channel tags 0 .. 99 each occur in exactly
    one name: ["ch0.tif"] and, for d = 1 .. 9, the file tagged
    ch{d}0 .. ch{d}9, whose name also contains ch{d}. *)
Definition tagged_tiles : list string :=
  "d/ch0.tif"%string ::
  map (fun d => ("d/" ++ fold_right String.append ".tif"
                  (map (fun e => "ch" ++ str_nat d ++ str_nat e) (seq 0 10)))%string)
      (seq 1 9).

(** A directory with two tile files in each of the channels 0 and 1. *)
Definition two_by_two : list string :=
  ["d/b_ch0.tif"; "d/a_ch0.tif"; "d/a_ch1.tif"; "d/b_ch1.tif"; "d/notes.txt"]%string.

(** [tif.imread] for evaluation: every file decodes to a 1 x 1 image
    holding its own name. *)
Definition name_reader (p : string) : result (ndarray string) :=
  Ok (mk_ndarray [1; 1] (fun _ => p)).

(** A directory with two tile files of channel 0 and one of channel 1. *)
Definition two_channels : list string :=
  ["d/b_ch0.tif"; "d/a_ch0.tif"; "d/a_ch1.tif"; "d/notes.txt"]%string.

(** Location readers for evaluation: a CSV file defining [a] and [b], and
    a SIM directory defining [a]. *)
Definition csv_reader (_ : string) : result (dict (Q * Q)) :=
  Ok [("a"%string, (1, 2)%Q); ("b"%string, (3, 4)%Q)].
Definition dir_reader (_ : string) : result (dict (Q * Q)) := Ok [("a"%string, (5, 6)%Q)].

(** A CSV reader that fails as [pd.read_csv] does on a malformed file. *)
Definition bad_csv_reader (_ : string) : result (dict (Q * Q)) :=
  Err (ValueError "Error tokenizing data.").

(** * Properties *)

(** ** numpy index arithmetic *)

Module NumPyFacts.

Lemma ravel_lt (I s : list nat) :
  Forall2 lt I s -> ravel I s < size s.
Proof.
  induction 1 as [|i d I s Hid HI IH]; simpl; [lia|].
  unfold size in *; simpl.
  assert (i * fold_right Nat.mul 1 s + fold_right Nat.mul 1 s
          <= d * fold_right Nat.mul 1 s) by nia.
  lia.
Qed.

Lemma unravel_ravel (I s : list nat) :
  Forall2 lt I s -> unravel (ravel I s) s = I.
Proof.
  induction 1 as [|i d I s Hid HI IH]; simpl; [reflexivity|].
  pose proof (ravel_lt I s HI) as Hlt.
  assert (Hpos : size s <> 0) by lia.
  rewrite Nat.div_add_l by exact Hpos.
  rewrite (Nat.div_small (ravel I s)) by exact Hlt.
  rewrite Nat.add_0_r, Nat.mod_small by exact Hid.
  rewrite Nat.add_comm, Nat.Div0.mod_add by exact Hpos.
  rewrite Nat.mod_small by exact Hlt.
  now rewrite IH.
Qed.

Lemma get_reshape {A : Type} (a a' : ndarray A) (s : list nat) :
  reshape a s = Ok a' ->
  shape a' = s /\ forall I, get a' I = get a (unravel (ravel I s) (shape a)).
Proof.
  unfold reshape; destruct (Nat.eqb _ _); intros H; inversion H; subst.
  split; reflexivity.
Qed.

Lemma reshape_ok {A : Type} (a : ndarray A) (s : list nat) :
  size s = size (shape a) -> exists a', reshape a s = Ok a'.
Proof.
  intros H; unfold reshape; rewrite (proj2 (Nat.eqb_eq _ _) H).
  eexists; reflexivity.
Qed.

(** [np.rollaxis(a, 2, 4)] on a five-axis array swaps axes 2 and 3. *)
Lemma rollaxis_2_4 {A : Type} (a : ndarray A) c dy dx ny nx :
  shape a = [c; dy; dx; ny; nx] ->
  shape (rollaxis a 2 4) = [c; dy; ny; dx; nx] /\
  forall j0 j1 j2 j3 j4,
    get (rollaxis a 2 4) [j0; j1; j2; j3; j4] = get a [j0; j1; j3; j2; j4].
Proof.
  intros Hs; unfold rollaxis, transpose; rewrite Hs; simpl.
  split; [reflexivity | intros; reflexivity].
Qed.

End NumPyFacts.

Import NumPyFacts.

Ltac lt_list := repeat constructor; lia.

(** ** [montage] *)

(** Claim C1: for a stack of shape (c, N, ny, nx) and a montage shape
    (dy, dx) with dy * dx = N, montage succeeds and pixel (i, j) of tile
    r * dx + col of channel ch lands at row r * ny + i and column
    col * nx + j of channel ch of the montage. *)
Theorem montage_tile_placement {A : Type} (stack : ndarray A)
    (c N ny nx dy dx : nat) :
  shape stack = [c; N; ny; nx] -> dy * dx = N ->
  exists out, montage stack (dy, dx) = Ok out /\
    forall ch r col i j,
      ch < c -> r < dy -> col < dx -> i < ny -> j < nx ->
      get out [ch; r * ny + i; col * nx + j] = get stack [ch; r * dx + col; i; j].
Proof.
  intros Hs HN.
  unfold montage; rewrite Hs.
  rewrite (proj2 (Nat.eqb_eq _ _) HN).
  destruct (reshape_ok stack [c; dy; dx; ny; nx]) as [r5 Hr5].
  { rewrite Hs; unfold size; simpl; subst N; ring. }
  rewrite Hr5; simpl.
  destruct (get_reshape _ _ _ Hr5) as [Hs5 Hg5].
  destruct (rollaxis_2_4 r5 c dy dx ny nx Hs5) as [Hsr Hgr].
  destruct (reshape_ok (rollaxis r5 2 4) [c; dy * ny; dx * nx]) as [out Hout].
  { rewrite Hsr; unfold size; simpl; ring. }
  exists out; split; [exact Hout|].
  intros ch r col i j Hch Hr Hcol Hi Hj.
  destruct (get_reshape _ _ _ Hout) as [_ Hgo].
  rewrite Hgo, Hsr.
  replace (ravel [ch; r * ny + i; col * nx + j] [c; dy * ny; dx * nx])
    with (ravel [ch; r; i; col; j] [c; dy; ny; dx; nx])
    by (unfold size; simpl; ring).
  rewrite unravel_ravel by lt_list.
  rewrite Hgr, Hg5, Hs.
  replace (ravel [ch; r; col; i; j] [c; dy; dx; ny; nx])
    with (ravel [ch; r * dx + col; i; j] [c; N; ny; nx])
    by (subst N; unfold size; simpl; ring).
  rewrite unravel_ravel; [reflexivity|].
  repeat constructor; subst N; nia.
Qed.

(** Claim C4: for a stack of shape (c, N, ny, nx) and dy * dx = N, montage
    returns an array of shape (c, dy * ny, dx * nx). *)
Theorem montage_shape {A : Type} (stack : ndarray A) (c N ny nx dy dx : nat) :
  shape stack = [c; N; ny; nx] -> dy * dx = N ->
  exists out, montage stack (dy, dx) = Ok out /\ shape out = [c; dy * ny; dx * nx].
Proof.
  intros Hs HN.
  unfold montage; rewrite Hs, (proj2 (Nat.eqb_eq _ _) HN).
  destruct (reshape_ok stack [c; dy; dx; ny; nx]) as [r5 Hr5].
  { rewrite Hs; unfold size; simpl; subst N; ring. }
  rewrite Hr5; simpl.
  destruct (get_reshape _ _ _ Hr5) as [Hs5 _].
  destruct (rollaxis_2_4 r5 c dy dx ny nx Hs5) as [Hsr _].
  destruct (reshape_ok (rollaxis r5 2 4) [c; dy * ny; dx * nx]) as [out Hout].
  { rewrite Hsr; unfold size; simpl; ring. }
  exists out; split; [exact Hout|].
  exact (proj1 (get_reshape _ _ _ Hout)).
Qed.

(** Claim C5: for a stack with N tiles and dy * dx <> N, montage fails with
    the assertion error whose message names N, dy and dx; no array is
    returned. *)
Theorem montage_mismatch {A : Type} (stack : ndarray A) (c N ny nx dy dx : nat) :
  shape stack = [c; N; ny; nx] -> dy * dx <> N ->
  montage stack (dy, dx) =
    Err (AssertionError ("Number of tiles, " ++ str_nat N
         ++ ", doesn't match montage dimensions (" ++ str_nat dy ++ ", "
         ++ str_nat dx ++ ")")%string).
Proof.
  intros Hs HN.
  unfold montage; rewrite Hs.
  destruct (Nat.eqb_spec (dy * dx) N) as [E|_]; [contradiction|reflexivity].
Qed.

Lemma montage_tile_placement_witness :
  shape six_tiles = [1; 6; 2; 2] /\ 2 * 3 = 6 /\
  exists out, montage six_tiles (2, 3) = Ok out /\
    forall ch r col i j,
      ch < 1 -> r < 2 -> col < 3 -> i < 2 -> j < 2 ->
      get out [ch; r * 2 + i; col * 2 + j] = get six_tiles [ch; r * 3 + col; i; j].
Proof.
  split; [reflexivity|split; [reflexivity|]].
  apply (montage_tile_placement six_tiles 1 6 2 2 2 3); reflexivity.
Defined.

Lemma montage_shape_witness :
  shape six_tiles = [1; 6; 2; 2] /\ 2 * 3 = 6 /\
  exists out, montage six_tiles (2, 3) = Ok out /\ shape out = [1; 2 * 2; 3 * 2].
Proof.
  split; [reflexivity|split; [reflexivity|]].
  apply (montage_shape six_tiles 1 6 2 2 2 3); reflexivity.
Defined.

Lemma montage_mismatch_witness :
  shape six_tiles = [1; 6; 2; 2] /\ 2 * 2 <> 6 /\
  montage six_tiles (2, 2) =
    Err (AssertionError ("Number of tiles, " ++ str_nat 6
         ++ ", doesn't match montage dimensions (" ++ str_nat 2 ++ ", "
         ++ str_nat 2 ++ ")")%string).
Proof.
  split; [reflexivity|split; [discriminate|]].
  apply (montage_mismatch six_tiles 1 6 2 2 2 2); [reflexivity|discriminate].
Defined.

(** ** [calc_extent] *)

Open Scope Q_scope.

Lemma q_of_nat_mul (a b : nat) : q_of_nat (a * b) == q_of_nat a * q_of_nat b.
Proof. unfold q_of_nat; rewrite Nat2Z.inj_mul, inject_Z_mult; reflexivity. Qed.

Lemma q_of_nat_pos (n : nat) : (0 < n)%nat -> 0 < q_of_nat n.
Proof. intros H; unfold q_of_nat; change 0 with (inject_Z 0); rewrite <- Zlt_Qlt; lia. Qed.

(** Claim C2: top and left are tile0's centre shifted by (ny // 2) and
    (nx // 2) pixels, and the extent spans dy * ny and dx * nx pixels. *)
Theorem calc_extent_anchor_span (y0 x0 : Q) (ny nx dy dx : nat) (pixel_size : Q) :
  let '(lft, rgt, bot, top) :=
    calc_extent (y0, x0) (ny, nx) (dy, dx) pixel_size in
  top == y0 + q_of_nat (Nat.div ny 2) * pixel_size /\
  lft == x0 + q_of_nat (Nat.div nx 2) * pixel_size /\
  top - bot == q_of_nat dy * q_of_nat ny * pixel_size /\
  lft - rgt == q_of_nat dx * q_of_nat nx * pixel_size.
Proof.
  simpl; rewrite !q_of_nat_mul.
  repeat split; ring.
Qed.

(** Claim C8: doubling the pixel size doubles both spans and keeps top and
    left on the half-tile rule at the doubled pixel size. *)
Theorem calc_extent_linear (tile0_loc : Q * Q) (tile_shape montage_shape : nat * nat)
    (p : Q) :
  let '(lft1, rgt1, bot1, top1) :=
    calc_extent tile0_loc tile_shape montage_shape p in
  let '(lft2, rgt2, bot2, top2) :=
    calc_extent tile0_loc tile_shape montage_shape (2 * p) in
  lft2 - rgt2 == 2 * (lft1 - rgt1) /\
  top2 - bot2 == 2 * (top1 - bot1) /\
  top2 == fst tile0_loc + q_of_nat (Nat.div (fst tile_shape) 2) * (2 * p) /\
  lft2 == snd tile0_loc + q_of_nat (Nat.div (snd tile_shape) 2) * (2 * p).
Proof.
  destruct tile0_loc as [y0 x0], tile_shape as [ny nx], montage_shape as [dy dx].
  simpl; repeat split; ring.
Qed.

(** Claim C10: for positive tile and montage shapes and a positive pixel
    size, right < left and bottom < top. *)
Theorem calc_extent_oriented (tile0_loc : Q * Q) (ny nx dy dx : nat) (pixel_size : Q) :
  (0 < ny)%nat -> (0 < nx)%nat -> (0 < dy)%nat -> (0 < dx)%nat -> 0 < pixel_size ->
  let '(lft, rgt, bot, top) :=
    calc_extent tile0_loc (ny, nx) (dy, dx) pixel_size in
  rgt < lft /\ bot < top.
Proof.
  intros Hny Hnx Hdy Hdx Hp.
  destruct tile0_loc as [y0 x0]; simpl.
  assert (Hy : 0 < q_of_nat (ny * dy) * pixel_size)
    by (apply Qmult_lt_0_compat; [apply q_of_nat_pos; lia | exact Hp]).
  assert (Hx : 0 < q_of_nat (nx * dx) * pixel_size)
    by (apply Qmult_lt_0_compat; [apply q_of_nat_pos; lia | exact Hp]).
  split; lra.
Qed.

Lemma calc_extent_oriented_witness :
  (0 < 512)%nat /\ (0 < 512)%nat /\ (0 < 2)%nat /\ (0 < 3)%nat /\ 0 < default_pixel_size /\
  let '(lft, rgt, bot, top) :=
    calc_extent (100, 200) (512, 512)%nat (2, 3)%nat default_pixel_size in
  rgt < lft /\ bot < top.
Proof.
  split; [lia|split; [lia|split; [lia|split; [lia|split; [reflexivity|]]]]].
  apply (calc_extent_oriented (100, 200) 512 512 2 3 default_pixel_size);
    [lia|lia|lia|lia|reflexivity].
Defined.

Close Scope Q_scope.

(** ** The overlay loop of [make_fig] *)

Open Scope Q_scope.

Lemma fold_annotate_app (fill : string -> nat -> string) ext sf locs ax :
  fold_left (annotate_location fill ext sf) locs ax =
  ax ++ fold_left (annotate_location fill ext sf) locs [].
Proof.
  revert ax; induction locs as [|loc locs IH]; intros ax; cbn [fold_left].
  - now rewrite app_nil_r.
  - rewrite (IH (annotate_location fill ext sf ax loc)),
      (IH (annotate_location fill ext sf [] loc)).
    destruct loc as [title [ymm xmm]]; unfold annotate_location.
    destruct (in_range ext _ _); simpl; rewrite <- ?app_assoc; reflexivity.
Qed.

Lemma in_range_iff (lft rgt bot top y x : Q) :
  in_range (lft, rgt, bot, top) y x = true <->
  (rgt <= x <= lft /\ bot <= y <= top).
Proof.
  unfold in_range; rewrite !andb_true_iff, !Qle_bool_iff; tauto.
Qed.

Lemma overlay_single (fill : string -> nat -> string) ext sf title ymm xmm :
  make_fig_overlay fill ext [(title, (ymm, xmm))] sf =
  if in_range ext (ymm * 1000) (xmm * 1000) then
    [make_rec (ymm * 1000) (xmm * 1000) (512 * (13 # 100)) (512 * (13 # 100))
       (Qmax 2 (20 * sf));
     Annotation (fill title 20%nat) (xmm * 1000, ymm * 1000)
       (xmm * 1000, ymm * 1000 + 512 * (13 # 100) / 2 * (13 # 10))
       (Qmax 12 (120 * sf))]
  else [].
Proof. unfold make_fig_overlay; simpl; destruct (in_range _ _ _); reflexivity. Qed.

Lemma overlay_single_iff (fill : string -> nat -> string) (lft rgt bot top : Q)
    sf title ymm xmm :
  make_fig_overlay fill (lft, rgt, bot, top) [(title, (ymm, xmm))] sf <> [] <->
  (rgt <= xmm * 1000 <= lft /\ bot <= ymm * 1000 <= top).
Proof.
  rewrite overlay_single, <- in_range_iff.
  destruct (in_range _ _ _); split; congruence.
Qed.

(** Claim C3: every location is handled on its own, in dict order, and
    contributes artists (a marker and an annotation) exactly when its
    position converted to micrometres, (ymm * 1000, xmm * 1000), satisfies
    right <= x <= left and bottom <= y <= top; otherwise it contributes
    nothing, and no error is possible. *)
Theorem make_fig_overlay_containment (fill : string -> nat -> string)
    (lft rgt bot top : Q) (locations : list (string * (Q * Q))) (sf : Q) :
  make_fig_overlay fill (lft, rgt, bot, top) locations sf =
    flat_map (fun loc => make_fig_overlay fill (lft, rgt, bot, top) [loc] sf) locations /\
  forall title ymm xmm,
    (make_fig_overlay fill (lft, rgt, bot, top) [(title, (ymm, xmm))] sf <> [] <->
     (rgt <= xmm * 1000 <= lft /\ bot <= ymm * 1000 <= top)) /\
    (~ (rgt <= xmm * 1000 <= lft /\ bot <= ymm * 1000 <= top) ->
     make_fig_overlay fill (lft, rgt, bot, top) [(title, (ymm, xmm))] sf = []).
Proof.
  split.
  - unfold make_fig_overlay at 1.
    induction locations as [|loc locs IH]; [reflexivity|].
    simpl; rewrite fold_annotate_app, IH; reflexivity.
  - intros title ymm xmm; split; [apply overlay_single_iff|].
    intros Hout.
    destruct (make_fig_overlay fill (lft, rgt, bot, top) [(title, (ymm, xmm))] sf)
      eqn:E; [reflexivity|].
    exfalso; apply Hout, (overlay_single_iff fill lft rgt bot top sf title ymm xmm).
    rewrite E; discriminate.
Qed.

Lemma make_fig_overlay_containment_witness :
  make_fig_overlay id_fill (233.28, 33.6, 0.16, 133.28)
    [("far"%string, (5 # 100, 3 # 100))] (1 # 10) = [].
Proof.
  apply (proj2 (proj2 (make_fig_overlay_containment id_fill 233.28 33.6 0.16 133.28
                         [] (1 # 10)) "far"%string (5 # 100) (3 # 100))).
  intros [[H _] _]; vm_compute in H; apply H; reflexivity.
Defined.

(** Claim C6, as stated, fails: the test is not symmetric in the order of
    the extent values.  With left = 0 and right = 10 the point (5, 5) um is
    dropped, with left = 10 and right = 0 it is kept. *)
Lemma make_fig_overlay_order_counterexample :
  ~ (forall (fill : string -> nat -> string) (lft rgt bot top sf : Q) title ymm xmm,
       make_fig_overlay fill (lft, rgt, bot, top) [(title, (ymm, xmm))] sf = [] <->
       make_fig_overlay fill (rgt, lft, bot, top) [(title, (ymm, xmm))] sf = []).
Proof.
  intros H.
  specialize (H id_fill 0 10 0 10 1 "p"%string (5 # 1000) (5 # 1000)).
  destruct H as [H _].
  specialize (H eq_refl).
  vm_compute in H; discriminate H.
Qed.

(** Claim C6, as amended: the test is inclusive at every boundary and
    excludes a point beyond any boundary by any epsilon > 0, but it is one
    sided: it keeps (x, y) exactly when right <= x <= left and
    bottom <= y <= top, so for an extent with left < right or top < bottom
    no location is kept. *)
Theorem make_fig_overlay_one_sided (fill : string -> nat -> string)
    (lft rgt bot top sf : Q) title (ymm xmm : Q) :
  let kept := make_fig_overlay fill (lft, rgt, bot, top) [(title, (ymm, xmm))] sf <> [] in
  (kept <-> rgt <= xmm * 1000 <= lft /\ bot <= ymm * 1000 <= top) /\
  (rgt <= lft -> xmm * 1000 == lft -> bot <= ymm * 1000 <= top -> kept) /\
  (bot <= top -> ymm * 1000 == top -> rgt <= xmm * 1000 <= lft -> kept) /\
  (forall eps, 0 < eps ->
     xmm * 1000 == lft + eps \/ xmm * 1000 == rgt - eps \/
     ymm * 1000 == top + eps \/ ymm * 1000 == bot - eps -> ~ kept) /\
  (lft < rgt \/ top < bot -> ~ kept).
Proof.
  cbv zeta.
  pose proof (overlay_single_iff fill lft rgt bot top sf title ymm xmm) as Hk.
  split; [exact Hk|].
  split; [intros H1 H2 H3; apply Hk; split; [split|]; [lra|lra|exact H3]|].
  split; [intros H1 H2 H3; apply Hk; split; [exact H3|split]; lra|].
  split.
  - intros eps Heps Hor Hkept; apply Hk in Hkept.
    destruct Hkept as [[Hx1 Hx2] [Hy1 Hy2]].
    destruct Hor as [E|[E|[E|E]]]; lra.
  - intros Hlt Hkept; apply Hk in Hkept.
    destruct Hkept as [[Hx1 Hx2] [Hy1 Hy2]].
    destruct Hlt; lra.
Qed.

Lemma make_fig_overlay_one_sided_witness :
  make_fig_overlay id_fill (233.28, 33.6, 0.16, 133.28)
    [("corner"%string, (13328 # 100000, 23328 # 100000))] (1 # 10) <> [].
Proof.
  apply (proj1 (proj2 (make_fig_overlay_one_sided id_fill 233.28 33.6 0.16 133.28
                          (1 # 10) "corner"%string (13328 # 100000) (23328 # 100000)))).
  - vm_compute; discriminate.
  - reflexivity.
  - split; vm_compute; discriminate.
Defined.

(** Claim C7, as stated, fails: the marker side is the constant 512 * 0.13
    of [make_fig], not 512 times the pixel size given to [calc_extent].
    With a pixel size of 0.1 the marker is still 66.56 um wide. *)
Lemma marker_side_counterexample :
  match overlay_pipeline id_fill (0, 0) (2, 2)%nat (1, 1)%nat (1 # 10)
          [("p"%string, (0, 0))] 1 with
  | Rectangle _ width _ _ :: _ => ~ (width == 512 * (1 # 10))
  | _ => False
  end.
Proof. vm_compute; discriminate. Qed.

(** Claim C7, as amended: a kept location at (x, y) = (xmm * 1000,
    ymm * 1000) gets a square marker of side 512 * 0.13 um, the default
    pixel size of [calc_extent], whatever pixel size the extent was computed
    with; the square has its corner at (x - side / 2, y - side / 2), and the
    annotation is the title wrapped at 20 characters, pointing at (x, y)
    with its text at (x, y + 1.3 * side / 2). *)
Theorem make_fig_overlay_marker (fill : string -> nat -> string)
    (lft rgt bot top sf : Q) title (ymm xmm : Q) :
  rgt <= xmm * 1000 <= lft -> bot <= ymm * 1000 <= top ->
  exists corner side height lw text xy xytext fs,
    make_fig_overlay fill (lft, rgt, bot, top) [(title, (ymm, xmm))] sf =
      [Rectangle corner side height lw; Annotation text xy xytext fs] /\
    side == 512 * default_pixel_size /\ height == side /\
    fst corner == xmm * 1000 - side / 2 /\ snd corner == ymm * 1000 - side / 2 /\
    text = fill title 20%nat /\ xy = (xmm * 1000, ymm * 1000) /\
    fst xytext == xmm * 1000 /\ snd xytext == ymm * 1000 + (13 # 10) * (side / 2).
Proof.
  intros Hx Hy.
  rewrite overlay_single.
  replace (in_range (lft, rgt, bot, top) (ymm * 1000) (xmm * 1000)) with true
    by (symmetry; apply in_range_iff; tauto).
  unfold make_rec; do 8 eexists; split; [reflexivity|].
  cbn [fst snd]; unfold default_pixel_size.
  repeat split; try reflexivity; ring.
Qed.

Lemma make_fig_overlay_marker_witness :
  exists corner side height lw text xy xytext fs,
    make_fig_overlay id_fill (233.28, 33.6, 0.16, 133.28)
      [("corner"%string, (13328 # 100000, 23328 # 100000))] (1 # 10) =
      [Rectangle corner side height lw; Annotation text xy xytext fs] /\
    side == 512 * default_pixel_size /\ height == side /\
    fst corner == (23328 # 100000) * 1000 - side / 2 /\
    snd corner == (13328 # 100000) * 1000 - side / 2 /\
    text = id_fill "corner" 20%nat /\ xy = ((23328 # 100000) * 1000, (13328 # 100000) * 1000) /\
    fst xytext == (23328 # 100000) * 1000 /\
    snd xytext == (13328 # 100000) * 1000 + (13 # 10) * (side / 2).
Proof.
  apply (make_fig_overlay_marker id_fill 233.28 33.6 0.16 133.28 (1 # 10)
           "corner"%string (13328 # 100000) (23328 # 100000));
    split; vm_compute; discriminate.
Defined.

Close Scope Q_scope.

(** ** [load_stack] *)

Lemma sorted_perm (l : list string) : Permutation l (sorted l).
Proof. apply StrSort.Permuted_sort. Qed.

Lemma sorted_sorted (l : list string) :
  Sorted (fun a b => String.leb a b = true) (sorted l).
Proof. exact (StrSort.Sorted_sort l). Qed.

Lemma sorted_nil (l : list string) : sorted l = [] <-> l = [].
Proof.
  split.
  - intros E; pose proof (Permutation_length (sorted_perm l)) as H.
    rewrite E in H; destruct l; [reflexivity|discriminate].
  - intros ->; pose proof (Permutation_length (sorted_perm [])) as H.
    destruct (sorted []); [reflexivity|discriminate].
Qed.

Section LoadStackFacts.

Variable glob : string -> list string.
Variable top_dir : string.

Lemma probe_channels_spec (fuel i : nat) :
  let ps := probe_channels glob top_dir fuel i in
  List.length ps <= fuel /\
  (List.length ps < fuel -> glob (channel_pattern top_dir (i + List.length ps)) = []) /\
  (forall k, k < List.length ps ->
     nth k ps [] = sorted (glob (channel_pattern top_dir (i + k))) /\ glob (channel_pattern top_dir (i + k)) <> []).
Proof.
  revert i; induction fuel as [|fuel IH]; intros i; cbn [probe_channels]; cbv zeta.
  - simpl; split; [lia|split; [lia|intros k Hk; lia]].
  - destruct (sorted (glob (channel_pattern top_dir i))) as [|a l] eqn:E.
    + cbn [List.length]; split; [lia|split; [|intros k Hk; lia]].
      intros _; rewrite Nat.add_0_r; apply sorted_nil, E.
    + destruct (IH (S i)) as [Hlen [Hstop Hk]].
      cbn [List.length]; split; [lia|split].
      * intros Hlt; rewrite <- Nat.add_succ_comm; apply Hstop; lia.
      * intros [|k] Hlt; cbn [nth].
        -- rewrite Nat.add_0_r; split; [now rewrite E|].
           intros Hn; apply sorted_nil in Hn; congruence.
        -- rewrite <- Nat.add_succ_comm; apply Hk; lia.
Qed.

End LoadStackFacts.

(** ** [mapM] and [np.asarray] *)

Lemma mapM_ok {X Y : Type} (f : X -> result Y) (l : list X) (ys : list Y) :
  mapM f l = Ok ys -> Forall2 (fun x y => f x = Ok y) l ys.
Proof.
  revert ys; induction l as [|x l IH]; intros ys H; simpl in H.
  - injection H as <-; constructor.
  - destruct (f x) as [y|e] eqn:Ef; [|discriminate]; simpl in H.
    destruct (mapM f l) as [ys'|e] eqn:El; [|discriminate]; simpl in H.
    injection H as <-; constructor; [exact Ef|exact (IH _ eq_refl)].
Qed.

Lemma mapM_err {X Y : Type} (f : X -> result Y) (l : list X) (e : pyerr) :
  mapM f l = Err e -> exists x, In x l /\ f x = Err e.
Proof.
  induction l as [|x l IH]; intros H; simpl in H; [discriminate|].
  destruct (f x) as [y|e'] eqn:Ef; simpl in H.
  - destruct (mapM f l) as [ys'|e'] eqn:El; simpl in H; [discriminate|].
    injection H as ->; destruct (IH eq_refl) as [x' [Hx' Hf]].
    exists x'; split; [right; exact Hx'|exact Hf].
  - injection H as ->; exists x; split; [left; reflexivity|exact Ef].
Qed.

Lemma mapM_total {X Y : Type} (f : X -> result Y) (l : list X) :
  (forall x, In x l -> exists y, f x = Ok y) ->
  exists ys, mapM f l = Ok ys.
Proof.
  induction l as [|x l IH]; intros H; simpl; [eexists; reflexivity|].
  destruct (H x (or_introl eq_refl)) as [y Hy]; rewrite Hy; simpl.
  destruct IH as [ys Hys]; [intros x' Hx'; apply H; right; exact Hx'|].
  rewrite Hys; eexists; reflexivity.
Qed.

Lemma Forall2_nth' {X Y : Type} (R : X -> Y -> Prop) (l1 : list X) (l2 : list Y)
    (k : nat) (d1 : X) (d2 : Y) :
  Forall2 R l1 l2 -> k < List.length l1 -> R (nth k l1 d1) (nth k l2 d2).
Proof.
  intros H; revert k; induction H as [|x y l1 l2 Hxy H IH]; intros k Hk;
    simpl in Hk; [lia|].
  destruct k; simpl; [exact Hxy|apply IH; lia].
Qed.

Lemma Forall2_in_left {X Y : Type} (R : X -> Y -> Prop) (l1 : list X) (l2 : list Y) (x : X) :
  Forall2 R l1 l2 -> In x l1 -> exists y, In y l2 /\ R x y.
Proof.
  intros H; induction H as [|x0 y0 l1 l2 Hxy H IH]; intros Hx; [destruct Hx|].
  destruct Hx as [<-|Hx]; [exists y0; split; [left; reflexivity|exact Hxy]|].
  destruct (IH Hx) as [y [Hy Hr]]; exists y; split; [right; exact Hy|exact Hr].
Qed.

Lemma Forall2_in_right {X Y : Type} (R : X -> Y -> Prop) (l1 : list X) (l2 : list Y) (y : Y) :
  Forall2 R l1 l2 -> In y l2 -> exists x, In x l1 /\ R x y.
Proof.
  intros H; induction H as [|x0 y0 l1 l2 Hxy H IH]; intros Hy; [destruct Hy|].
  destruct Hy as [<-|Hy]; [exists x0; split; [left; reflexivity|exact Hxy]|].
  destruct (IH Hy) as [x [Hx Hr]]; exists x; split; [right; exact Hx|exact Hr].
Qed.

Lemma shape_eqb_eq (s1 s2 : list nat) : shape_eqb s1 s2 = true <-> s1 = s2.
Proof. unfold shape_eqb; destruct (list_eq_dec Nat.eq_dec s1 s2); split; congruence. Qed.

Lemma asarray_ok {A : Type} (tiles : list (list (ndarray A))) (st : ndarray A) :
  asarray_stack tiles = Ok st ->
  exists t0 m s, shape st = List.length tiles :: m :: s /\ 0 < m /\
    forall ch, ch < List.length tiles ->
      List.length (nth ch tiles []) = m /\
      forall t, t < m -> shape (nth t (nth ch tiles []) t0) = s /\
        forall rest, get st (ch :: t :: rest) = get (nth t (nth ch tiles []) t0) rest.
Proof.
  intros H; destruct tiles as [|[|t0 c0] tl];
    cbv beta iota zeta delta [asarray_stack] in H; try discriminate.
  destruct (forallb _ _) eqn:F; [|discriminate].
  injection H as <-.
  exists t0, (S (List.length c0)), (shape t0).
  split; [reflexivity|split; [lia|]].
  intros ch Hch.
  rewrite forallb_forall in F.
  specialize (F (nth ch ((t0 :: c0) :: tl) []) (nth_In _ _ Hch)).
  apply andb_true_iff in F as [Fl Fs].
  apply Nat.eqb_eq in Fl; split; [exact Fl|].
  intros t Ht; split; [|reflexivity].
  rewrite forallb_forall in Fs; apply shape_eqb_eq, Fs, nth_In; cbn [List.length] in *; lia.
Qed.

Lemma asarray_err {A : Type} (tiles : list (list (ndarray A))) (e : pyerr) :
  asarray_stack tiles = Err e -> e = ValueError asarray_msg.
Proof.
  intros H; destruct tiles as [|[|t0 c0] tl];
    cbv beta iota zeta delta [asarray_stack] in H; try congruence.
  destruct (forallb _ _); congruence.
Qed.

Lemma asarray_uniform {A : Type} (tiles : list (list (ndarray A))) (m : nat) (s : list nat) :
  tiles <> [] -> 0 < m ->
  (forall ch, In ch tiles -> List.length ch = m /\ forall t, In t ch -> shape t = s) ->
  exists st, asarray_stack tiles = Ok st /\ shape st = List.length tiles :: m :: s.
Proof.
  intros Hne Hm H.
  destruct tiles as [|[|t0 c0] tl]; [contradiction| |].
  - destruct (H [] (or_introl eq_refl)) as [Hl _]; simpl in Hl; lia.
  - destruct (H _ (or_introl eq_refl)) as [Hl Hs].
    assert (Hs0 : shape t0 = s) by (apply Hs; left; reflexivity).
    cbv beta iota zeta delta [asarray_stack].
    replace (forallb _ _) with true.
    + eexists; split; [reflexivity|]; simpl in Hl |- *; rewrite Hl, Hs0; reflexivity.
    + symmetry; apply forallb_forall; intros ch Hch.
      destruct (H ch Hch) as [Hl' Hs'].
      apply andb_true_iff; split; [apply Nat.eqb_eq; congruence|].
      apply forallb_forall; intros t Ht; apply shape_eqb_eq; rewrite Hs0; apply Hs', Ht.
Qed.

Lemma asarray_ragged {A : Type} (tiles : list (list (ndarray A))) (ch1 ch2 : list (ndarray A)) :
  In ch1 tiles -> In ch2 tiles -> List.length ch1 <> List.length ch2 ->
  asarray_stack tiles = Err (ValueError asarray_msg).
Proof.
  intros H1 H2 Hne.
  destruct tiles as [|[|t0 c0] tl]; [contradiction|reflexivity|].
  cbv beta iota zeta delta [asarray_stack]; destruct (forallb _ _) eqn:F; [|reflexivity].
  exfalso; rewrite forallb_forall in F.
  pose proof (F _ H1) as F1; pose proof (F _ H2) as F2.
  apply andb_true_iff in F1 as [F1 _]; apply andb_true_iff in F2 as [F2 _].
  apply Nat.eqb_eq in F1; apply Nat.eqb_eq in F2; congruence.
Qed.

(** The number of probed channels is the first index without files, or
    100; any n with these two properties is that number. *)
Lemma probe_channels_count (glob : string -> list string) (top_dir : string) (n : nat) :
  n <= 100 ->
  (forall i, i < n -> glob (channel_pattern top_dir i) <> []) ->
  (n < 100 -> glob (channel_pattern top_dir n) = []) ->
  List.length (probe_channels glob top_dir 100 0) = n.
Proof.
  intros Hn Hne Hz.
  destruct (probe_channels_spec glob top_dir 100 0) as [Hlen [Hstop Hk]].
  destruct (Nat.lt_trichotomy (List.length (probe_channels glob top_dir 100 0)) n)
    as [Hlt|[Heq|Hgt]]; [exfalso| exact Heq|exfalso].
  - apply (Hne _ Hlt); exact (Hstop ltac:(lia)).
  - apply (proj2 (Hk n Hgt)); exact (Hz ltac:(lia)).
Qed.

Lemma probe_channels_in (glob : string -> list string) (top_dir : string) (ch : list string) :
  In ch (probe_channels glob top_dir 100 0) ->
  exists i, i < List.length (probe_channels glob top_dir 100 0) /\
    ch = sorted (glob (channel_pattern top_dir i)).
Proof.
  intros Hin; destruct (In_nth _ _ [] Hin) as [i [Hi <-]].
  destruct (probe_channels_spec glob top_dir 100 0) as [_ [_ Hk]].
  exists i; split; [exact Hi|exact (proj1 (Hk i Hi))].
Qed.

(** Claim C9, as stated, fails when every one of the 100 probed channel
    indices matches files: on the ten files of [tagged_tiles] each channel
    0 .. 99 matches exactly one file, so the tiles stack without error and
    [load_stack] returns 100 channels although no probed index had zero
    matches. *)

Lemma load_stack_count_counterexample :
  ~ (forall (glob : string -> list string) (A : Type) (imread : string -> result (ndarray A))
       (top_dir : string) (st : ndarray A),
       load_stack glob A imread top_dir = Ok st ->
       exists i, i < 100 /\ glob (channel_pattern top_dir i) = [] /\
         (forall j, j < i -> glob (channel_pattern top_dir j) <> []) /\
         hd 0 (shape st) = i).
Proof.
  intros H.
  destruct (H (glob_in tagged_tiles) string name_reader "d/"%string
              (match load_stack (glob_in tagged_tiles) string name_reader "d/" with
               | Ok st => st | Err _ => mk_ndarray [] (fun _ => EmptyString) end))
    as [i [Hi [_ [_ Hlen]]]].
  - vm_compute; reflexivity.
  - vm_compute in Hlen; lia.
Qed.

(** Claim C9, as amended: [load_stack] raises [RuntimeError] naming the
    directory when channel 0 matches no file.  Otherwise it raises only an
    exception of [tif.imread] on one of the probed files, or the
    [ValueError] of [np.asarray]: it does so when the probed channels hold
    different numbers of files (and every file reads).  When it succeeds,
    the result has shape (n, m) + tile shape, where the channel count n is
    the first index without files, or 100 when all of 0 .. 99 match; every
    channel holds m files, and tile t of channel i is the image of the t-th
    of its files in sorted order.  It succeeds whenever every probed
    channel holds the same number of files and they all read to images of
    one shape. *)
Theorem load_stack_channels (glob : string -> list string) (A : Type)
    (imread : string -> result (ndarray A)) (top_dir : string) :
  (glob (channel_pattern top_dir 0) = [] ->
   load_stack glob A imread top_dir =
     Err (RuntimeError ("No files found in " ++ top_dir)%string)) /\
  (glob (channel_pattern top_dir 0) <> [] ->
   forall e, load_stack glob A imread top_dir = Err e ->
     (exists i p, i < 100 /\ In p (glob (channel_pattern top_dir i)) /\ imread p = Err e) \/
     e = ValueError asarray_msg) /\
  (forall st, load_stack glob A imread top_dir = Ok st ->
   exists n m s, shape st = n :: m :: s /\ 0 < n <= 100 /\
     (forall i, i < n -> glob (channel_pattern top_dir i) <> []) /\
     (n < 100 -> glob (channel_pattern top_dir n) = []) /\
     forall i, i < n ->
       List.length (glob (channel_pattern top_dir i)) = m /\
       Sorted (fun a b => String.leb a b = true) (sorted (glob (channel_pattern top_dir i))) /\
       Permutation (glob (channel_pattern top_dir i)) (sorted (glob (channel_pattern top_dir i))) /\
       forall t, t < m -> exists tile,
         imread (nth t (sorted (glob (channel_pattern top_dir i))) EmptyString) = Ok tile /\
         shape tile = s /\ forall rest, get st (i :: t :: rest) = get tile rest) /\
  (forall n m s, 0 < n <= 100 ->
   (forall i, i < n -> glob (channel_pattern top_dir i) <> []) ->
   (n < 100 -> glob (channel_pattern top_dir n) = []) ->
   (forall i, i < n -> List.length (glob (channel_pattern top_dir i)) = m /\
      forall p, In p (glob (channel_pattern top_dir i)) ->
        exists tile, imread p = Ok tile /\ shape tile = s) ->
   exists st, load_stack glob A imread top_dir = Ok st /\ shape st = n :: m :: s) /\
  (forall n, 0 < n <= 100 ->
   (forall i, i < n -> glob (channel_pattern top_dir i) <> []) ->
   (n < 100 -> glob (channel_pattern top_dir n) = []) ->
   (forall i p, i < n -> In p (glob (channel_pattern top_dir i)) ->
      exists tile, imread p = Ok tile) ->
   (exists i j, i < n /\ j < n /\
      List.length (glob (channel_pattern top_dir i)) <>
      List.length (glob (channel_pattern top_dir j))) ->
   load_stack glob A imread top_dir = Err (ValueError asarray_msg)).
Proof.
  destruct (probe_channels_spec glob top_dir 100 0) as [Hlen [Hstop Hk]].
  cbn [Nat.add] in Hstop, Hk.
  pose proof (probe_channels_count glob top_dir) as Hcount.
  pose proof (probe_channels_in glob top_dir) as Hin.
  set (ps := probe_channels glob top_dir 100 0) in *.
  assert (Hread : forall tiles, mapM (mapM imread) ps = Ok tiles ->
            List.length tiles = List.length ps /\
            forall i, i < List.length ps ->
              Forall2 (fun p t => imread p = Ok t) (nth i ps []) (nth i tiles [])).
  { intros tiles Ht; apply mapM_ok in Ht.
    split; [symmetry; exact (Forall2_length Ht)|].
    intros i Hi; apply mapM_ok; exact (Forall2_nth' _ _ _ i [] [] Ht Hi). }
  assert (Hall : forall n, 0 < n <= 100 ->
            (forall i, i < n -> glob (channel_pattern top_dir i) <> []) ->
            (n < 100 -> glob (channel_pattern top_dir n) = []) ->
            (forall i p, i < n -> In p (glob (channel_pattern top_dir i)) ->
               exists tile, imread p = Ok tile) ->
            List.length ps = n /\ exists tiles, mapM (mapM imread) ps = Ok tiles).
  { intros n Hn Hne Hz Hok.
    assert (Hl : List.length ps = n) by (apply Hcount; auto; lia).
    split; [exact Hl|].
    apply mapM_total; intros ch Hch.
    destruct (Hin ch Hch) as [i [Hi ->]].
    apply mapM_total; intros p Hp.
    apply (Hok i p); [lia|].
    apply (Permutation_in _ (Permutation_sym (sorted_perm _)) Hp). }
  unfold load_stack; fold ps.
  split; [|split; [|split; [|split]]].
  - intros H0; destruct ps as [|ch0 rest]; [reflexivity|].
    exfalso; destruct (Hk 0 ltac:(simpl; lia)) as [_ Hne]; exact (Hne H0).
  - intros H0 e He; destruct ps as [|ch0 rest] eqn:Eps.
    + exfalso; apply H0; exact (Hstop ltac:(simpl; lia)).
    + rewrite <- Eps in *.
      destruct (mapM (mapM imread) ps) as [tiles|e'] eqn:Em; simpl in He.
      * right; exact (asarray_err _ _ He).
      * injection He as ->; left.
        destruct (mapM_err _ _ _ Em) as [ch [Hch Hm]].
        destruct (mapM_err _ _ _ Hm) as [p [Hp Hr]].
        destruct (Hin ch Hch) as [i [Hi ->]].
        exists i, p; split; [lia|split; [|exact Hr]].
        apply (Permutation_in _ (Permutation_sym (sorted_perm _)) Hp).
  - intros st Hst; destruct ps as [|ch0 rest] eqn:Eps; [discriminate|].
    rewrite <- Eps in *.
    destruct (mapM (mapM imread) ps) as [tiles|e'] eqn:Em; simpl in Hst; [|discriminate].
    destruct (Hread tiles eq_refl) as [Htl Hnth].
    destruct (asarray_ok _ _ Hst) as (t0 & m & s & Hsh & Hm & Hch).
    exists (List.length ps), m, s.
    split; [rewrite Hsh, Htl; reflexivity|].
    split; [split; [rewrite Eps; simpl; lia|exact Hlen]|].
    split; [intros i Hi; exact (proj2 (Hk i Hi))|].
    split; [exact Hstop|].
    intros i Hi.
    destruct (Hch i ltac:(lia)) as [Hli Ht].
    pose proof (Hnth i Hi) as HF.
    destruct (Hk i Hi) as [Ei _].
    assert (Hlg : List.length (glob (channel_pattern top_dir i)) = m).
    { rewrite (Permutation_length (sorted_perm _)), <- Ei, (Forall2_length HF); exact Hli. }
    split; [exact Hlg|split; [apply sorted_sorted|split; [apply sorted_perm|]]].
    intros t Htm.
    exists (nth t (nth i tiles []) t0).
    destruct (Ht t Htm) as [Hts Hget].
    split; [|split; [exact Hts|exact Hget]].
    rewrite <- Ei; apply (Forall2_nth' _ _ _ t EmptyString t0 HF).
    rewrite Ei, <- (Permutation_length (sorted_perm _)); lia.
  - intros n m s Hn Hne Hz Hok.
    destruct (Hall n Hn Hne Hz) as [Hl [tiles Em]];
      [intros i p Hi Hp; destruct (proj2 (Hok i Hi) p Hp) as [tile [Ht _]]; eauto|].
    destruct ps as [|ch0 rest] eqn:Eps; [simpl in Hl; lia|].
    rewrite <- Eps in *; rewrite Em; simpl.
    destruct (Hread tiles Em) as [Htl Hnth].
    destruct (asarray_uniform tiles m s) as [st [Hst Hsh]].
    + intros ->; simpl in Htl; rewrite Eps in Htl; discriminate.
    + destruct (Hok 0 ltac:(lia)) as [Hl0 _].
      destruct (glob (channel_pattern top_dir 0)) eqn:E0;
        [exfalso; exact (Hne 0 ltac:(lia) E0)|simpl in Hl0; lia].
    + intros ch Hch; destruct (In_nth _ _ [] Hch) as [i [Hi <-]].
      rewrite Htl in Hi.
      pose proof (Hnth i Hi) as HF.
      destruct (Hk i Hi) as [Ei _].
      destruct (Hok i ltac:(lia)) as [Hli Hsh].
      split.
      * rewrite <- (Forall2_length HF), Ei, <- (Permutation_length (sorted_perm _)); exact Hli.
      * intros t Ht.
        destruct (In_nth _ _ t Ht) as [k [Hkl Hkt]].
        pose proof (Forall2_nth' _ _ _ k EmptyString t HF ltac:(rewrite (Forall2_length HF); exact Hkl)) as Hr.
        rewrite Hkt in Hr.
        assert (Hp : In (nth k (nth i ps []) EmptyString) (glob (channel_pattern top_dir i))).
        { apply (Permutation_in _ (Permutation_sym (sorted_perm _))).
          rewrite <- Ei; apply nth_In; rewrite (Forall2_length HF); exact Hkl. }
        destruct (Hsh _ Hp) as [tile [Hr' Hs']]; congruence.
    + exists st; split; [exact Hst|rewrite Hsh, Htl, Hl; reflexivity].
  - intros n Hn Hne Hz Hok [i [j [Hi [Hj Hij]]]].
    destruct (Hall n Hn Hne Hz Hok) as [Hl [tiles Em]].
    destruct ps as [|ch0 rest] eqn:Eps; [simpl in Hl; lia|].
    rewrite <- Eps in *; rewrite Em; simpl.
    destruct (Hread tiles Em) as [Htl Hnth].
    apply (asarray_ragged tiles (nth i tiles []) (nth j tiles [])).
    + apply nth_In; lia.
    + apply nth_In; lia.
    + rewrite <- (Forall2_length (Hnth i ltac:(lia))), <- (Forall2_length (Hnth j ltac:(lia))).
      rewrite (proj1 (Hk i ltac:(lia))), (proj1 (Hk j ltac:(lia))).
      rewrite <- !(Permutation_length (sorted_perm _)); exact Hij.
Qed.

Lemma load_stack_channels_witness :
  (exists st, load_stack (glob_in two_by_two) string name_reader "d/"%string = Ok st /\
     shape st = [2; 2; 1; 1]) /\
  load_stack (glob_in two_channels) string name_reader "d/"%string =
    Err (ValueError asarray_msg).
Proof.
  split.
  - apply (proj1 (proj2 (proj2 (proj2
             (load_stack_channels (glob_in two_by_two) string name_reader "d/"%string))))
             2 2 [1; 1]).
    + lia.
    + intros i Hi; destruct i as [|[|i]]; [vm_compute; discriminate..|lia].
    + intros _; vm_compute; reflexivity.
    + intros i Hi; destruct i as [|[|i]]; [| |lia];
        (split; [vm_compute; reflexivity|intros p _; eexists; split; reflexivity]).
  - apply (proj2 (proj2 (proj2 (proj2
             (load_stack_channels (glob_in two_channels) string name_reader "d/"%string))))
             2).
    + lia.
    + intros i Hi; destruct i as [|[|i]]; [vm_compute; discriminate..|lia].
    + intros _; vm_compute; reflexivity.
    + intros i p _ _; eexists; reflexivity.
    + exists 0, 1; split; [lia|split; [lia|vm_compute; discriminate]].
Defined.

(** * Further properties of the code *)

(** ** [str.split] and [str.join] *)

Lemma split_on_not_nil (c : ascii) (s : string) : split_on c s <> [].
Proof.
  induction s as [|d s IH]; simpl; [discriminate|].
  destruct (Ascii.eqb d c); [discriminate|].
  destruct (split_on c s); discriminate.
Qed.

Lemma split_on_app_sep (c : ascii) (a b : string) :
  split_on c (a ++ String c b)%string = split_on c a ++ split_on c b.
Proof.
  induction a as [|d a IH]; simpl.
  - now rewrite Ascii.eqb_refl.
  - rewrite IH.
    destruct (Ascii.eqb d c); [reflexivity|].
    destruct (split_on c a) as [|p ps] eqn:E; [now destruct (split_on_not_nil c a)|].
    reflexivity.
Qed.

Lemma split_on_no_sep (c : ascii) (s : string) :
  char_in c s = false -> split_on c s = [s].
Proof.
  induction s as [|d s IH]; simpl; [reflexivity|].
  intros H; apply orb_false_iff in H as [H1 H2].
  rewrite Ascii.eqb_sym, H1, (IH H2); reflexivity.
Qed.

Lemma join_split (c : ascii) (s : string) :
  join_with (String c EmptyString) (split_on c s) = s.
Proof.
  induction s as [|d s IH]; simpl; [reflexivity|].
  pose proof (split_on_not_nil c s) as Hnn.
  destruct (Ascii.eqb d c) eqn:E.
  - apply Ascii.eqb_eq in E; subst d.
    destruct (split_on c s) as [|p ps]; [contradiction|].
    simpl in *; now rewrite IH.
  - destruct (split_on c s) as [|p [|p' ps]]; [contradiction| |];
      simpl in *; now rewrite IH.
Qed.

Lemma char_in_app (c : ascii) (a b : string) :
  char_in c (a ++ b)%string = char_in c a || char_in c b.
Proof. induction a as [|d a IH]; simpl; [reflexivity|]; now rewrite IH, orb_assoc. Qed.

Lemma nth_app_two {A : Type} (l : list A) (x y d : A) :
  nth (List.length (l ++ [x; y]) - 2) (l ++ [x; y]) d = x.
Proof.
  rewrite length_app; simpl.
  replace (List.length l + 2 - 2) with (List.length l) by lia.
  rewrite app_nth2 by lia; now rewrite Nat.sub_diag.
Qed.

Lemma clean_path_parent (abspath : string -> string) (path d name f : string) :
  abspath path = (d ++ String "/" (name ++ String "/" f))%string ->
  char_in "/" name = false -> char_in "/" f = false ->
  clean_path abspath path = Some (join_with "_" (drop_last_two (split_on "_" name))).
Proof.
  intros Hp Hn Hf; unfold clean_path; rewrite Hp.
  rewrite !split_on_app_sep, (split_on_no_sep _ name Hn), (split_on_no_sep _ f Hf).
  replace (List.length (split_on "/" d ++ [name] ++ [f]) <? 2) with false
    by (symmetry; apply Nat.ltb_ge; rewrite length_app; simpl; lia).
  change ([name] ++ [f]) with [name; f].
  now rewrite nth_app_two.
Qed.

(** [clean_path] returns the name of the parent directory of the file with
    its last two [_]-separated fields removed; the fields kept may
    themselves contain underscores. *)
Theorem clean_path_strips_two_fields (abspath : string -> string)
    (path d prefix u v f : string) :
  abspath path =
    (d ++ String "/" ((prefix ++ String "_" (u ++ String "_" v)) ++ String "/" f))%string ->
  char_in "/" prefix = false -> char_in "/" u = false -> char_in "/" v = false ->
  char_in "/" f = false -> char_in "_" u = false -> char_in "_" v = false ->
  clean_path abspath path = Some prefix.
Proof.
  intros Hp Hpre Hu Hv Hf Hu_ Hv_.
  rewrite (clean_path_parent abspath path d _ f Hp); [|clear Hp| exact Hf].
  - rewrite !split_on_app_sep, (split_on_no_sep _ u Hu_), (split_on_no_sep _ v Hv_).
    unfold drop_last_two.
    change ([u] ++ [v]) with [u; v].
    rewrite length_app, firstn_app; simpl.
    replace (List.length (split_on "_" prefix) + 2 - 2)
      with (List.length (split_on "_" prefix)) by lia.
    rewrite firstn_all, Nat.sub_diag; simpl; rewrite app_nil_r.
    now rewrite join_split.
  - rewrite char_in_app, Hpre; simpl; rewrite char_in_app, Hu; simpl; exact Hv.
Qed.

Lemma clean_path_strips_two_fields_witness :
  clean_path (fun p => p) "/data/cell_1_sim_001/x_config.txt"%string = Some "cell_1"%string.
Proof.
  apply (clean_path_strips_two_fields (fun p => p) _ "/data" "cell_1" "sim" "001"
           "x_config.txt"); reflexivity.
Defined.

(** A parent directory name with at most two [_]-separated fields gives the
    empty name. *)
Theorem clean_path_short_name (abspath : string -> string) (path d name f : string) :
  abspath path = (d ++ String "/" (name ++ String "/" f))%string ->
  char_in "/" name = false -> char_in "/" f = false ->
  List.length (split_on "_" name) <= 2 ->
  clean_path abspath path = Some EmptyString.
Proof.
  intros Hp Hn Hf Hlen.
  rewrite (clean_path_parent abspath path d name f Hp Hn Hf).
  unfold drop_last_two; now replace (List.length (split_on "_" name) - 2) with 0 by lia.
Qed.

Lemma clean_path_short_name_witness :
  clean_path (fun p => p) "/data/cell_sim/x_config.txt"%string = Some EmptyString.
Proof.
  apply (clean_path_short_name (fun p => p) _ "/data" "cell_sim" "x_config.txt");
    [reflexivity|reflexivity|reflexivity|simpl; lia].
Defined.

(** ** Dicts and [get_locations] *)

Lemma dict_lookup_set {V : Type} (k k' : string) (v : V) (d : dict V) :
  dict_lookup k (dict_set k' v d) =
  if String.eqb k k' then Some v else dict_lookup k d.
Proof.
  induction d as [|[k1 v1] d IH]; simpl.
  - reflexivity.
  - destruct (String.eqb_spec k' k1) as [->|Hne]; simpl.
    + destruct (String.eqb k k1); reflexivity.
    + rewrite IH.
      destruct (String.eqb_spec k k'), (String.eqb_spec k k1); congruence.
Qed.

Lemma dict_lookup_notin {V : Type} (k : string) (d : dict V) :
  ~ In k (map fst d) -> dict_lookup k d = None.
Proof.
  induction d as [|[k1 v1] d IH]; simpl; intros H; [reflexivity|].
  destruct (String.eqb_spec k k1); [subst; tauto|].
  apply IH; tauto.
Qed.

Lemma dict_lookup_update {V : Type} (k : string) (d e : dict V) :
  NoDup (map fst e) ->
  dict_lookup k (dict_update d e) =
  match dict_lookup k e with Some v => Some v | None => dict_lookup k d end.
Proof.
  unfold dict_update; revert d.
  induction e as [|[k1 v1] e IH]; intros d Hnd; simpl; [reflexivity|].
  inversion Hnd as [|? ? Hnotin Hnd']; subst.
  rewrite (IH _ Hnd'), dict_lookup_set.
  destruct (String.eqb_spec k k1) as [->|Hne].
  - now rewrite (dict_lookup_notin k1 e Hnotin).
  - destruct (dict_lookup k e); reflexivity.
Qed.

Lemma dict_set_keys {V : Type} (k x : string) (v : V) (d : dict V) :
  In x (map fst (dict_set k v d)) <-> x = k \/ In x (map fst d).
Proof.
  induction d as [|[k1 v1] d IH]; simpl; [intuition congruence|].
  destruct (String.eqb_spec k k1) as [->|Hne]; simpl; [intuition congruence|].
  rewrite IH; tauto.
Qed.

Lemma dict_set_nodup {V : Type} (k : string) (v : V) (d : dict V) :
  NoDup (map fst d) -> NoDup (map fst (dict_set k v d)).
Proof.
  induction d as [|[k1 v1] d IH]; simpl; intros Hnd.
  - repeat constructor; simpl; tauto.
  - inversion Hnd as [|? ? Hnotin Hnd']; subst.
    destruct (String.eqb_spec k k1) as [->|Hne]; simpl; [exact Hnd|].
    constructor; [|exact (IH Hnd')].
    rewrite dict_set_keys; intros [E|E]; [congruence|contradiction].
Qed.

Lemma dict_update_nodup {V : Type} (d e : dict V) :
  NoDup (map fst d) -> NoDup (map fst (dict_update d e)).
Proof.
  unfold dict_update; revert d.
  induction e as [|[k1 v1] e IH]; intros d Hnd; simpl; [exact Hnd|].
  apply IH, dict_set_nodup, Hnd.
Qed.

Lemma dict_set_not_nil {V : Type} (k : string) (v : V) (d : dict V) :
  dict_set k v d <> [].
Proof. destruct d as [|[k1 v1] d]; simpl; [|destruct (String.eqb k k1)]; discriminate. Qed.

Lemma dict_update_nil {V : Type} (d e : dict V) :
  dict_update d e = [] <-> d = [] /\ e = [].
Proof.
  unfold dict_update; revert d.
  induction e as [|[k1 v1] e IH]; intros d; simpl; [tauto|].
  rewrite IH; split; [intros [H _]; now destruct (dict_set_not_nil k1 v1 d)|].
  intros [_ H]; discriminate.
Qed.

Lemma fold_update_nil (ds : list (dict (Q * Q))) (acc : dict (Q * Q)) :
  fold_left dict_update ds acc = [] <-> acc = [] /\ forall e, In e ds -> e = [].
Proof.
  revert acc; induction ds as [|e ds IH]; intros acc; simpl; [split; [tauto|tauto]|].
  rewrite IH, dict_update_nil.
  split; [intros [[H1 H2] H3]; split; [exact H1|intros e' [<-|He']; auto]|].
  intros [H1 H2]; split; [split; auto|auto].
Qed.

Lemma fold_update_nodup (ds : list (dict (Q * Q))) (acc : dict (Q * Q)) :
  NoDup (map fst acc) -> NoDup (map fst (fold_left dict_update ds acc)).
Proof.
  revert acc; induction ds as [|e ds IH]; intros acc Hnd; simpl; [exact Hnd|].
  apply IH, dict_update_nodup, Hnd.
Qed.

Lemma fold_update_lookup (name : string) (ds : list (dict (Q * Q))) (acc : dict (Q * Q)) :
  (forall e, In e ds -> NoDup (map fst e)) ->
  dict_lookup name (fold_left dict_update ds acc) =
  fold_left (fun r e => match dict_lookup name e with Some v => Some v | None => r end)
            ds (dict_lookup name acc).
Proof.
  revert acc; induction ds as [|e ds IH]; intros acc Hnd; simpl; [reflexivity|].
  rewrite IH by (intros e' He'; apply Hnd; right; exact He').
  rewrite dict_lookup_update by (apply Hnd; left; reflexivity); reflexivity.
Qed.

Section GetLocationsFacts.

Variable extract_locations_csv : string -> result (dict (Q * Q)).
Variable extract_locations : string -> result (dict (Q * Q)).

Lemma collect_ok (acc d : dict (Q * Q)) (paths : list string) :
  collect_locations extract_locations_csv extract_locations acc paths = Ok d ->
  exists ds, Forall2 (fun p e => location_source extract_locations_csv extract_locations p = Ok e)
               paths ds /\ d = fold_left dict_update ds acc.
Proof.
  revert acc; induction paths as [|p ps IH]; intros acc H; simpl in H.
  - injection H as <-; exists []; split; [constructor|reflexivity].
  - destruct (location_source extract_locations_csv extract_locations p) as [e|err] eqn:Es;
      simpl in H; [|discriminate].
    destruct (IH _ H) as [ds [Hf Hd]].
    exists (e :: ds); split; [constructor; assumption|exact Hd].
Qed.

Lemma collect_all_empty (acc : dict (Q * Q)) (paths : list string) :
  (forall q, In q paths -> location_source extract_locations_csv extract_locations q = Ok []) ->
  collect_locations extract_locations_csv extract_locations acc paths = Ok acc.
Proof.
  induction paths as [|p ps IH]; intros H; simpl; [reflexivity|].
  rewrite (H p (or_introl eq_refl)); simpl.
  apply IH; intros q Hq; apply H; right; exact Hq.
Qed.

Lemma collect_err (acc : dict (Q * Q)) (paths : list string) (e : pyerr) :
  collect_locations extract_locations_csv extract_locations acc paths = Err e <->
  exists pre p post, paths = pre ++ p :: post /\
    (forall q, In q pre -> exists d, location_source extract_locations_csv extract_locations q = Ok d) /\
    location_source extract_locations_csv extract_locations p = Err e.
Proof.
  split.
  - revert acc; induction paths as [|p ps IH]; intros acc H; simpl in H; [discriminate|].
    destruct (location_source extract_locations_csv extract_locations p) as [d|err] eqn:Es;
      simpl in H.
    + destruct (IH _ H) as (pre & q & post & -> & Hpre & Hq).
      exists (p :: pre), q, post; split; [reflexivity|split; [|exact Hq]].
      intros r [<-|Hr]; [exists d; exact Es|exact (Hpre r Hr)].
    + injection H as ->; exists [], p, ps; split; [reflexivity|split; [intros r []|exact Es]].
  - intros (pre & p & post & -> & Hpre & Hp).
    revert acc; induction pre as [|q pre IH]; intros acc; simpl.
    + rewrite Hp; reflexivity.
    + destruct (Hpre q (or_introl eq_refl)) as [d Hd]; rewrite Hd; simpl.
      apply IH; intros r Hr; apply Hpre; right; exact Hr.
Qed.

(** Every exception of [get_locations]: the first exception of a reader, in
    command-line order, or the [RuntimeError] when every reader returns an
    empty dict. *)
Lemma get_locations_err_iff (location_path : list string) (e : pyerr) :
  get_locations extract_locations_csv extract_locations location_path = Err e <->
  (exists pre p post, location_path = pre ++ p :: post /\
     (forall q, In q pre -> exists d, location_source extract_locations_csv extract_locations q = Ok d) /\
     location_source extract_locations_csv extract_locations p = Err e) \/
  ((forall q, In q location_path ->
      location_source extract_locations_csv extract_locations q = Ok []) /\
   e = RuntimeError "No locations found.").
Proof.
  pose proof (collect_err [] location_path e) as Herr.
  pose proof (collect_all_empty [] location_path) as Hemp.
  unfold get_locations.
  destruct (collect_locations extract_locations_csv extract_locations [] location_path)
    as [d|e'] eqn:C; simpl.
  - destruct (collect_ok [] d location_path C) as [ds [Hf Hd]].
    destruct d as [|x l].
    + split.
      * intros H; injection H as <-; right; split; [|reflexivity].
        intros q Hq.
        symmetry in Hd; apply fold_update_nil in Hd as [_ Hall].
        clear C Herr Hemp; induction Hf as [|p0 e0 ps es Hp0 Hf IH]; [destruct Hq|].
        destruct Hq as [<-|Hq]; [rewrite Hp0; f_equal; apply Hall; left; reflexivity|].
        apply IH; [intros e1 He1; apply Hall; right; exact He1|exact Hq].
      * intros [H|[_ ->]]; [apply Herr in H; congruence|reflexivity].
    + split; [discriminate|].
      intros [H|[Hall _]]; [apply Herr in H; congruence|].
      specialize (Hemp Hall); congruence.
  - split.
    + intros H; injection H as ->; left; apply Herr; reflexivity.
    + intros [H|[Hall _]].
      * apply Herr in H; congruence.
      * specialize (Hemp Hall); congruence.
Qed.

Lemma fold_sources_lookup (name : string) (paths : list string) (ds : list (dict (Q * Q)))
    (r : option (Q * Q)) :
  Forall2 (fun p e => location_source extract_locations_csv extract_locations p = Ok e) paths ds ->
  fold_left (fun r p => match location_source extract_locations_csv extract_locations p with
                        | Ok dp => match dict_lookup name dp with Some v => Some v | None => r end
                        | Err _ => r end) paths r =
  fold_left (fun r e => match dict_lookup name e with Some v => Some v | None => r end) ds r.
Proof.
  intros Hf; revert r; induction Hf as [|p e ps es Hp Hf IH]; intros r; simpl; [reflexivity|].
  rewrite Hp; apply IH.
Qed.

End GetLocationsFacts.

(** [get_locations] raises either the first exception a location reader
    raises, in command-line order, or [RuntimeError("No locations found.")]
    when every reader returns an empty dict (in particular for an empty
    list of paths); it raises nothing else. *)
Theorem get_locations_errors (extract_locations_csv extract_locations : string -> result (dict (Q * Q)))
    (location_path : list string) (e : pyerr) :
  get_locations extract_locations_csv extract_locations location_path = Err e <->
  (exists pre p post, location_path = pre ++ p :: post /\
     (forall q, In q pre -> exists d, location_source extract_locations_csv extract_locations q = Ok d) /\
     location_source extract_locations_csv extract_locations p = Err e) \/
  ((forall q, In q location_path ->
      location_source extract_locations_csv extract_locations q = Ok []) /\
   e = RuntimeError "No locations found.").
Proof. apply get_locations_err_iff. Qed.

(** When the readers return dicts (unique names), a successful
    [get_locations] has read every path and returns a dict with unique
    names in which every name maps to its position in the last path, in
    command-line order, that defines it: later paths override earlier
    ones. *)
Theorem get_locations_last_wins (extract_locations_csv extract_locations : string -> result (dict (Q * Q)))
    (location_path : list string) (d : dict (Q * Q)) :
  (forall p dp, location_source extract_locations_csv extract_locations p = Ok dp ->
     NoDup (map fst dp)) ->
  get_locations extract_locations_csv extract_locations location_path = Ok d ->
  (forall p, In p location_path ->
     exists dp, location_source extract_locations_csv extract_locations p = Ok dp) /\
  NoDup (map fst d) /\
  forall name,
    dict_lookup name d =
    fold_left (fun r p =>
                 match location_source extract_locations_csv extract_locations p with
                 | Ok dp => match dict_lookup name dp with Some v => Some v | None => r end
                 | Err _ => r
                 end)
              location_path None.
Proof.
  intros Hnd Hok; unfold get_locations in Hok.
  destruct (collect_locations extract_locations_csv extract_locations [] location_path)
    as [d'|e] eqn:C; simpl in Hok; [|discriminate].
  assert (Hd : d' = d) by (destruct d'; [discriminate|injection Hok as <-; reflexivity]).
  subst d'.
  destruct (collect_ok extract_locations_csv extract_locations [] d location_path C)
    as [ds [Hf ->]].
  assert (Hds : forall e, In e ds -> NoDup (map fst e)).
  { intros e He; destruct (Forall2_in_right _ _ _ _ Hf He) as [p [_ Hp]]; exact (Hnd _ _ Hp). }
  split; [|split].
  - intros p Hp; destruct (Forall2_in_left _ _ _ _ Hf Hp) as [dp [_ Hdp]]; exists dp; exact Hdp.
  - apply fold_update_nodup; constructor.
  - intros name; rewrite (fold_sources_lookup _ _ name _ _ None Hf).
    rewrite fold_update_lookup by exact Hds; reflexivity.
Qed.

Lemma get_locations_errors_witness :
  get_locations bad_csv_reader dir_reader ["a.csv"; "sim"]%string =
    Err (ValueError "Error tokenizing data.") /\
  get_locations (fun _ => Ok []) (fun _ => Ok []) ["a.csv"; "sim"]%string =
    Err (RuntimeError "No locations found.").
Proof.
  split.
  - apply (get_locations_errors bad_csv_reader dir_reader ["a.csv"; "sim"]%string).
    left; exists [], "a.csv"%string, ["sim"%string].
    split; [reflexivity|split; [intros q []|reflexivity]].
  - apply (get_locations_errors (fun _ => Ok []) (fun _ => Ok []) ["a.csv"; "sim"]%string).
    right; split; [|reflexivity].
    intros q _; unfold location_source; destruct (str_contains _ _); reflexivity.
Defined.

Lemma get_locations_last_wins_witness :
  (forall p, In p ["pos.csv"; "sim"]%string ->
     exists dp, location_source csv_reader dir_reader p = Ok dp) /\
  NoDup (map fst [("a"%string, (5, 6)%Q); ("b"%string, (3, 4)%Q)]) /\
  forall name,
    dict_lookup name [("a"%string, (5, 6)%Q); ("b"%string, (3, 4)%Q)] =
    fold_left (fun r p =>
                 match location_source csv_reader dir_reader p with
                 | Ok dp => match dict_lookup name dp with Some v => Some v | None => r end
                 | Err _ => r
                 end)
              ["pos.csv"; "sim"]%string None.
Proof.
  apply (get_locations_last_wins csv_reader dir_reader ["pos.csv"; "sim"]%string).
  - intros p dp; unfold location_source; destruct (str_contains _ _);
      intros H; injection H as <-; repeat constructor; simpl; intuition discriminate.
  - reflexivity.
Defined.

(** In [cli], an empty [--location-path] never raises: the run goes on with
    no locations when the user confirms and aborts otherwise.  With paths
    given, [cli] raises exactly the exceptions of [get_locations]: the
    first exception of a reader, or "No locations found." when every
    reader returns an empty dict. *)
Theorem cli_locations_outcome (extract_locations_csv extract_locations : string -> result (dict (Q * Q)))
    (location_path : list string) (answer : bool) :
  (location_path = [] ->
   cli_locations extract_locations_csv extract_locations location_path answer =
     if answer then CliLocations [] else CliAbort) /\
  forall e,
  (cli_locations extract_locations_csv extract_locations location_path answer = CliRaised e <->
   location_path <> [] /\
   ((exists pre p post, location_path = pre ++ p :: post /\
       (forall q, In q pre -> exists d, location_source extract_locations_csv extract_locations q = Ok d) /\
       location_source extract_locations_csv extract_locations p = Err e) \/
    ((forall q, In q location_path ->
        location_source extract_locations_csv extract_locations q = Ok []) /\
     e = RuntimeError "No locations found."))).
Proof.
  split; [intros ->; reflexivity|].
  intros e; unfold cli_locations.
  destruct location_path as [|p0 ps].
  - destruct answer; split; [discriminate|intros [H _]; contradiction|
                             discriminate|intros [H _]; contradiction].
  - rewrite <- (get_locations_err_iff extract_locations_csv extract_locations (p0 :: ps) e).
    destruct (get_locations extract_locations_csv extract_locations (p0 :: ps)) as [d|e'].
    + split; [discriminate|intros [_ H]; discriminate].
    + split; [intros H; injection H as ->; split; [discriminate|reflexivity]|].
      intros [_ H]; injection H as ->; reflexivity.
Qed.

Lemma cli_locations_outcome_witness :
  cli_locations csv_reader dir_reader [] true = CliLocations [] /\
  cli_locations csv_reader dir_reader [] false = CliAbort /\
  cli_locations bad_csv_reader dir_reader ["a.csv"]%string true =
    CliRaised (ValueError "Error tokenizing data.").
Proof.
  split; [|split].
  - apply (proj1 (cli_locations_outcome csv_reader dir_reader [] true)); reflexivity.
  - apply (proj1 (cli_locations_outcome csv_reader dir_reader [] false)); reflexivity.
  - apply (proj2 (cli_locations_outcome bad_csv_reader dir_reader ["a.csv"]%string true)
             (ValueError "Error tokenizing data.")).
    split; [discriminate|left].
    exists [], "a.csv"%string, []; split; [reflexivity|split; [intros q []|reflexivity]].
Defined.

(** ** Every pixel of a montage *)

Lemma montage_get_blocks {A : Type} (stack out : ndarray A) (c N ny nx dy dx : nat) :
  shape stack = [c; N; ny; nx] -> montage stack (dy, dx) = Ok out ->
  dy * dx = N /\ shape out = [c; dy * ny; dx * nx] /\
  forall ch r col i j,
    ch < c -> r < dy -> col < dx -> i < ny -> j < nx ->
    get out [ch; r * ny + i; col * nx + j] = get stack [ch; r * dx + col; i; j].
Proof.
  intros Hs Hm; unfold montage in Hm; rewrite Hs in Hm.
  destruct (Nat.eqb_spec (dy * dx) N) as [HN|]; [|discriminate].
  destruct (reshape stack [c; dy; dx; ny; nx]) as [r5|e] eqn:Hr5; simpl in Hm;
    [|discriminate].
  destruct (get_reshape _ _ _ Hr5) as [Hs5 Hg5].
  destruct (rollaxis_2_4 r5 c dy dx ny nx Hs5) as [Hsr Hgr].
  destruct (get_reshape _ _ _ Hm) as [Hso Hgo].
  split; [exact HN|split; [exact Hso|]].
  intros ch r col i j Hch Hr Hcol Hi Hj.
  rewrite Hgo, Hsr.
  replace (ravel [ch; r * ny + i; col * nx + j] [c; dy * ny; dx * nx])
    with (ravel [ch; r; i; col; j] [c; dy; ny; dx; nx])
    by (unfold size; simpl; ring).
  rewrite unravel_ravel by lt_list.
  rewrite Hgr, Hg5, Hs.
  replace (ravel [ch; r; col; i; j] [c; dy; dx; ny; nx])
    with (ravel [ch; r * dx + col; i; j] [c; N; ny; nx])
    by (subst N; unfold size; simpl; ring).
  rewrite unravel_ravel; [reflexivity|].
  repeat constructor; subst N; nia.
Qed.

(** Read in the other direction: pixel (a, b) of channel ch of a montage
    comes from tile (a / ny) * dx + b / nx, at row a mod ny and column
    b mod nx of that tile; so every output pixel is a copy of exactly one
    input pixel. *)
Theorem montage_pixel_source {A : Type} (stack out : ndarray A) (c N ny nx dy dx : nat) :
  shape stack = [c; N; ny; nx] -> montage stack (dy, dx) = Ok out ->
  forall ch a b, ch < c -> a < dy * ny -> b < dx * nx ->
    get out [ch; a; b] =
    get stack [ch; (a / ny) * dx + b / nx; a mod ny; b mod nx].
Proof.
  intros Hs Hm ch a b Hch Ha Hb.
  destruct (montage_get_blocks stack out c N ny nx dy dx Hs Hm) as [_ [_ Hg]].
  assert (Hny : ny <> 0) by (intros ->; lia).
  assert (Hnx : nx <> 0) by (intros ->; lia).
  rewrite <- Hg.
  - assert (E1 : a / ny * ny + a mod ny = a)
      by (rewrite Nat.mul_comm; symmetry; apply Nat.div_mod_eq).
    assert (E2 : b / nx * nx + b mod nx = b)
      by (rewrite Nat.mul_comm; symmetry; apply Nat.div_mod_eq).
    now rewrite E1, E2.
  - exact Hch.
  - apply Nat.Div0.div_lt_upper_bound; lia.
  - apply Nat.Div0.div_lt_upper_bound; lia.
  - apply Nat.mod_upper_bound; exact Hny.
  - apply Nat.mod_upper_bound; exact Hnx.
Qed.

Lemma montage_pixel_source_witness :
  shape six_tiles = [1; 6; 2; 2] /\
  exists out, montage six_tiles (2, 3) = Ok out /\
    get out [0; 3; 5] = get six_tiles [0; (3 / 2) * 3 + 5 / 2; 3 mod 2; 5 mod 2].
Proof.
  split; [reflexivity|].
  exists (match montage six_tiles (2, 3) with Ok o => o | Err _ => six_tiles end).
  split; [reflexivity|].
  apply (montage_pixel_source six_tiles _ 1 6 2 2 2 3); [reflexivity|reflexivity|lia|lia|lia].
Defined.

(** ** What [make_fig] draws *)

Lemma overlay_flat_map (fill : string -> nat -> string) ext locations sf :
  make_fig_overlay fill ext locations sf =
  flat_map (fun loc => make_fig_overlay fill ext [loc] sf) locations.
Proof.
  unfold make_fig_overlay at 1.
  induction locations as [|loc locs IH]; [reflexivity|].
  simpl; rewrite fold_annotate_app, IH; reflexivity.
Qed.

Open Scope Q_scope.

(** Every marker [make_fig] draws is centred inside the extent, every
    annotation points inside it, marker lines are at least 2 points wide
    and annotation fonts at least 12 points, whatever the scale factor. *)
Theorem make_fig_overlay_artists (fill : string -> nat -> string)
    (lft rgt bot top : Q) (locations : list (string * (Q * Q))) (sf : Q) :
  forall a, In a (make_fig_overlay fill (lft, rgt, bot, top) locations sf) ->
  match a with
  | Rectangle (cx, cy) w h lw =>
      rgt <= cx + w / 2 <= lft /\ bot <= cy + h / 2 <= top /\ 2 <= lw
  | Annotation _ (x, y) _ fs =>
      rgt <= x <= lft /\ bot <= y <= top /\ 12 <= fs
  end.
Proof.
  intros a Ha.
  rewrite overlay_flat_map in Ha.
  apply in_flat_map in Ha as [[title [ymm xmm]] [_ Ha]].
  rewrite overlay_single in Ha.
  destruct (in_range (lft, rgt, bot, top) (ymm * 1000) (xmm * 1000)) eqn:E;
    [|contradiction].
  apply in_range_iff in E as [[Hx1 Hx2] [Hy1 Hy2]].
  destruct Ha as [<-|[<-|[]]]; unfold make_rec.
  - split; [split; lra|split; [split; lra|apply Q.le_max_l]].
  - split; [split; lra|split; [split; lra|apply Q.le_max_l]].
Qed.

Close Scope Q_scope.

Lemma make_fig_overlay_artists_witness :
  let L := make_fig_overlay id_fill (233.28, 33.6, 0.16, 133.28)%Q
             [("corner"%string, (13328 # 100000, 23328 # 100000)%Q)] (1 # 10)%Q in
  In (nth 0 L (Rectangle (0, 0)%Q 0%Q 0%Q 0%Q)) L /\
  match nth 0 L (Rectangle (0, 0)%Q 0%Q 0%Q 0%Q) with
  | Rectangle (cx, cy) w h lw =>
      (33.6 <= cx + w / 2 <= 233.28 /\ 0.16 <= cy + h / 2 <= 133.28 /\ 2 <= lw)%Q
  | Annotation _ (x, y) _ fs =>
      (33.6 <= x <= 233.28 /\ 0.16 <= y <= 133.28 /\ 12 <= fs)%Q
  end.
Proof.
  cbv zeta.
  assert (Hin : In (nth 0 (make_fig_overlay id_fill (233.28, 33.6, 0.16, 133.28)%Q
             [("corner"%string, (13328 # 100000, 23328 # 100000)%Q)] (1 # 10)%Q)
                      (Rectangle (0, 0)%Q 0%Q 0%Q 0%Q))
                   (make_fig_overlay id_fill (233.28, 33.6, 0.16, 133.28)%Q
             [("corner"%string, (13328 # 100000, 23328 # 100000)%Q)] (1 # 10)%Q))
    by (vm_compute; left; reflexivity).
  split; [exact Hin|].
  exact (make_fig_overlay_artists id_fill 233.28 33.6 0.16 133.28 _ _ _ Hin).
Defined.

(** ** The channel glob patterns of [load_stack] *)

Lemma list_ascii_of_string_app (a b : string) :
  list_ascii_of_string (a ++ b) = list_ascii_of_string a ++ list_ascii_of_string b.
Proof. induction a as [|c a IH]; simpl; [reflexivity|now rewrite IH]. Qed.

Lemma fnmatch_lit (c : ascii) (p s : list ascii) :
  c <> "*"%char ->
  fnmatch_list (c :: p) s =
  match s with [] => false | c' :: s' => Ascii.eqb c c' && fnmatch_list p s' end.
Proof.
  intros H; destruct c as [[] [] [] [] [] [] [] []]; try reflexivity.
  exfalso; apply H; reflexivity.
Qed.

Lemma fnmatch_star_cons (p : list ascii) (x : ascii) (s : list ascii) :
  fnmatch_list ("*"%char :: p) (x :: s) =
  fnmatch_list p (x :: s) || fnmatch_list ("*"%char :: p) s.
Proof. reflexivity. Qed.

Lemma fnmatch_star (p s : list ascii) :
  fnmatch_list ("*"%char :: p) s = true <-> exists k, fnmatch_list p (skipn k s) = true.
Proof.
  induction s as [|x s IH].
  - change (fnmatch_list ("*"%char :: p) []) with (fnmatch_list p [] || false).
    rewrite orb_false_r; split; [intros H; exists 0; exact H|].
    intros [k Hk]; now rewrite skipn_nil in Hk.
  - rewrite fnmatch_star_cons, orb_true_iff, IH.
    split.
    + intros [H|[k Hk]]; [exists 0; exact H|exists (S k); exact Hk].
    + intros [[|k] Hk]; [left; exact Hk|right; exists k; exact Hk].
Qed.

Lemma fnmatch_prefix_mono (p1 p2 : list ascii) :
  (forall s, fnmatch_list p1 s = true -> fnmatch_list p2 s = true) ->
  forall P s, fnmatch_list (P ++ p1) s = true -> fnmatch_list (P ++ p2) s = true.
Proof.
  intros H12 P; induction P as [|c P IH]; intros s Hs; [exact (H12 s Hs)|].
  destruct (ascii_dec c "*"%char) as [->|Hc]; cbn [List.app] in *.
  - apply fnmatch_star in Hs as [k Hk]; apply fnmatch_star.
    exists k; exact (IH _ Hk).
  - rewrite (fnmatch_lit c (P ++ p1) s Hc) in Hs; rewrite (fnmatch_lit c (P ++ p2) s Hc).
    destruct s as [|x s]; [discriminate|].
    apply andb_true_iff in Hs as [Hx Hs]; rewrite Hx; exact (IH _ Hs).
Qed.

Lemma fnmatch_absorb (R T s : list ascii) :
  fnmatch_list (R ++ "*"%char :: T) s = true -> fnmatch_list ("*"%char :: T) s = true.
Proof.
  revert s; induction R as [|c R IH]; intros s Hs; [exact Hs|].
  destruct (ascii_dec c "*"%char) as [->|Hc]; cbn [List.app] in Hs.
  - apply fnmatch_star in Hs as [k Hk].
    apply IH, fnmatch_star in Hk as [k' Hk'].
    apply fnmatch_star; exists (k' + k); now rewrite <- skipn_skipn.
  - rewrite fnmatch_lit in Hs by exact Hc.
    destruct s as [|x s]; [discriminate|].
    apply andb_true_iff in Hs as [_ Hs].
    apply IH, fnmatch_star in Hs as [k Hk].
    apply fnmatch_star; exists (S k); exact Hk.
Qed.

(** The pattern [top_dir + "*ch{}*.tif".format(i)] that [load_stack] uses
    for channel i also matches every file of channel n whenever str(n)
    starts with str(i): for instance all files of channel 10 .. 19 are
    listed among the tiles of channel 1. *)
Theorem channel_pattern_overlap (listing : list string) (top_dir : string)
    (i n : nat) (r : string) :
  str_nat n = (str_nat i ++ r)%string ->
  incl (glob_in listing (channel_pattern top_dir n))
       (glob_in listing (channel_pattern top_dir i)).
Proof.
  intros Hn x Hx.
  apply filter_In in Hx as [Hin Hm]; apply filter_In; split; [exact Hin|].
  unfold fnmatch, channel_pattern in *.
  rewrite Hn in Hm.
  rewrite !list_ascii_of_string_app in *.
  set (A := list_ascii_of_string top_dir) in *.
  set (I := list_ascii_of_string (str_nat i)) in *.
  set (R := list_ascii_of_string r) in *.
  simpl list_ascii_of_string in *.
  set (T := ["."%char; "t"%char; "i"%char; "f"%char]) in *.
  rewrite <- (app_assoc I R) in Hm.
  change (fnmatch_list (A ++ "*"%char :: "c"%char :: "h"%char :: I ++ R ++ "*"%char :: T)
            (list_ascii_of_string x) = true) in Hm.
  change (fnmatch_list (A ++ "*"%char :: "c"%char :: "h"%char :: I ++ "*"%char :: T)
            (list_ascii_of_string x) = true).
  replace (A ++ "*"%char :: "c"%char :: "h"%char :: I ++ R ++ "*"%char :: T)
    with ((A ++ "*"%char :: "c"%char :: "h"%char :: I) ++ (R ++ "*"%char :: T)) in Hm
    by (rewrite <- app_assoc; reflexivity).
  replace (A ++ "*"%char :: "c"%char :: "h"%char :: I ++ "*"%char :: T)
    with ((A ++ "*"%char :: "c"%char :: "h"%char :: I) ++ ("*"%char :: T))
    by (rewrite <- app_assoc; reflexivity).
  revert Hm; apply fnmatch_prefix_mono.
  intros s; apply fnmatch_absorb.
Qed.

Lemma channel_pattern_overlap_witness :
  incl (glob_in hundred_channels (channel_pattern "d/" 10))
       (glob_in hundred_channels (channel_pattern "d/" 1)).
Proof.
  apply (channel_pattern_overlap hundred_channels "d/" 1 10 "0"); reflexivity.
Defined.

(** ** Output names of [save_montage] *)

Lemma char_in_snoc_slash s : char_in "/" (s ++ "/") = true.
Proof. induction s; simpl; [reflexivity|rewrite IHs, orb_true_r; reflexivity]. Qed.

Lemma dir_head_snoc_slash s : dir_head (s ++ "/") = (s ++ "/")%string.
Proof.
  induction s as [|c s IH]; [reflexivity|].
  simpl; rewrite char_in_snoc_slash, IH; reflexivity.
Qed.

Lemma rstrip_slash_snoc_slash s : rstrip_slash (s ++ "/") = rstrip_slash s.
Proof. induction s as [|c s IH]; [reflexivity|]. simpl; rewrite IH; reflexivity. Qed.

Lemma ends_with_char_snoc c s :
  ends_with_char c s = true -> exists t, s = (t ++ String c EmptyString)%string.
Proof.
  induction s as [|c' s IH]; [discriminate|].
  destruct s as [|c'' s].
  - intros H; apply Ascii.eqb_eq in H; subst; exists EmptyString; reflexivity.
  - intros H; destruct (IH H) as [t Ht]; exists (String c' t); simpl; rewrite Ht; reflexivity.
Qed.

Lemma all_slash_snoc s :
  all_slash (s ++ "/") = all_slash s.
Proof.
  unfold all_slash; induction s as [|c s IH]; [reflexivity|]; simpl.
  rewrite IH; reflexivity.
Qed.

Lemma dirname_join p :
  all_slash p = false ->
  dirname (path_join_empty p) = rstrip_slash p.
Proof.
  intros Hp.
  destruct p as [|c p']; [discriminate|].
  set (p := String c p') in *.
  assert (Hj : exists t, path_join_empty p = (t ++ "/")%string /\ all_slash t = false
                 /\ rstrip_slash t = rstrip_slash p).
  { unfold path_join_empty, p; fold p.
    destruct (ends_with_char "/" p) eqn:E.
    - destruct (ends_with_char_snoc _ _ E) as [t Ht].
      exists t; rewrite Ht in *; rewrite all_slash_snoc in Hp.
      rewrite rstrip_slash_snoc_slash; auto.
    - exists p; auto. }
  destruct Hj as (t & -> & Ht & Hr).
  unfold dirname; rewrite dir_head_snoc_slash, all_slash_snoc, Ht, <- Hr, rstrip_slash_snoc_slash.
  destruct t; reflexivity.
Qed.

Lemma uint_to_string_inj d1 d2 : uint_to_string d1 = uint_to_string d2 -> d1 = d2.
Proof.
  revert d2; induction d1; intros d2 H; destruct d2; simpl in H;
    try reflexivity; try discriminate; injection H as H; f_equal; auto.
Qed.

Lemma str_nat_inj i j : str_nat i = str_nat j -> i = j.
Proof. intros H; apply DecimalNat.Unsigned.to_uint_inj, uint_to_string_inj, H. Qed.

Lemma append_assoc_str a b c : (a ++ (b ++ c))%string = ((a ++ b) ++ c)%string.
Proof. induction a; simpl; congruence. Qed.

Lemma string_app_inv_head a x y : (a ++ x)%string = (a ++ y)%string -> x = y.
Proof. induction a; simpl; [auto|]; intros H; injection H; auto. Qed.

Lemma string_app_inv_tail x y b : (x ++ b)%string = (y ++ b)%string -> x = y.
Proof.
  intros H.
  rewrite <- (string_of_list_ascii_of_string x), <- (string_of_list_ascii_of_string y).
  f_equal; apply (app_inv_tail (list_ascii_of_string b)).
  rewrite <- !list_ascii_of_string_app, H; reflexivity.
Qed.

(** The suffix of [save_montage]'s format string. *)
Definition ch_suffix : string := "_ch{}.jpg".

(** A format string that formats without arguments is plain text with
    escaped braces: formatting it followed by more text formats the rest on
    its own. *)
Lemma format_lit_app (D T u : string) (args : list string) (k : nat) :
  format_aux D [] 0 = Some u ->
  format_aux (D ++ T) args k = option_map (String.append u) (format_aux T args k).
Proof.
  revert u k; remember (String.length D) as n eqn:HD; revert D HD;
  induction n as [n IH] using lt_wf_ind; intros D HD; intros u k Hu.
  destruct D as [|c r]; simpl in Hu.
  - injection Hu as <-; simpl; destruct (format_aux T args k); reflexivity.
  - cbn [String.append format_aux].
    destruct (Ascii.eqb c "{") eqn:Eo.
    + destruct r as [|c' r']; [discriminate|].
      cbn [String.append].
      destruct (Ascii.eqb c' "{") eqn:Eo'; [|destruct (Ascii.eqb c' "}"); discriminate].
      destruct (format_aux r' [] 0) as [u'|] eqn:Er; [|discriminate].
      simpl in Hu; injection Hu as <-.
      rewrite (IH (String.length r') ltac:(simpl in *; lia) r' eq_refl u' k Er).
      destruct (format_aux T args k); reflexivity.
    + destruct (Ascii.eqb c "}") eqn:Ec.
      * destruct r as [|c' r']; [discriminate|].
      cbn [String.append].
        destruct (Ascii.eqb c' "}") eqn:Ec'; [|discriminate].
        destruct (format_aux r' [] 0) as [u'|] eqn:Er; [|discriminate].
        simpl in Hu; injection Hu as <-.
        rewrite (IH (String.length r') ltac:(simpl in *; lia) r' eq_refl u' k Er).
        destruct (format_aux T args k); reflexivity.
      * destruct (format_aux r [] 0) as [u'|] eqn:Er; [|discriminate].
        simpl in Hu; injection Hu as <-.
        rewrite (IH (String.length r) ltac:(simpl in *; lia) r eq_refl u' k Er).
        destruct (format_aux T args k); reflexivity.
Qed.

(** Once the arguments are used up, the automatic field of the suffix
    raises, whatever comes before it. *)
Lemma format_suffix_exhausted (D : string) (args : list string) (k : nat) :
  List.length args <= k -> format_aux (D ++ ch_suffix) args k = None.
Proof.
  revert k; remember (String.length D) as n eqn:HD; revert D HD;
  induction n as [n IH] using lt_wf_ind; intros D HD; intros k Hk.
  destruct D as [|c r].
  - simpl; rewrite (proj2 (nth_error_None args k) Hk); reflexivity.
  - cbn [String.append format_aux].
    destruct (Ascii.eqb c "{") eqn:Eo.
    + destruct r as [|c' r']; [reflexivity|].
      cbn [String.append].
      destruct (Ascii.eqb c' "{") eqn:Eo'.
      * rewrite (IH (String.length r') ltac:(simpl in *; lia) r' eq_refl k Hk); reflexivity.
      * destruct (Ascii.eqb c' "}"); [|reflexivity].
        rewrite (proj2 (nth_error_None args k) Hk); reflexivity.
    + destruct (Ascii.eqb c "}") eqn:Ec.
      * destruct r as [|c' r']; [reflexivity|].
        cbn [String.append].
        destruct (Ascii.eqb c' "}"); [|reflexivity].
        rewrite (IH (String.length r') ltac:(simpl in *; lia) r' eq_refl k Hk); reflexivity.
      * rewrite (IH (String.length r) ltac:(simpl in *; lia) r eq_refl k Hk); reflexivity.
Qed.

(** A directory name that is not plain text with escaped braces (a
    replacement field or a stray brace) makes the format raise, given at
    most one argument left for the suffix. *)
Lemma format_fail_app (D : string) (args : list string) (k : nat) :
  List.length args <= S k -> format_aux D [] 0 = None ->
  format_aux (D ++ ch_suffix) args k = None.
Proof.
  revert k; remember (String.length D) as n eqn:HD; revert D HD;
  induction n as [n IH] using lt_wf_ind; intros D HD; intros k Hk Hn.
  destruct D as [|c r]; [discriminate|].
  cbn [String.append format_aux] in Hn |- *.
  destruct (Ascii.eqb c "{") eqn:Eo.
  - destruct r as [|c' r']; [reflexivity|].
    cbn [String.append].
    destruct (Ascii.eqb c' "{") eqn:Eo'.
    + destruct (format_aux r' [] 0) eqn:Er; [discriminate|].
      rewrite (IH (String.length r') ltac:(simpl in *; lia) r' eq_refl k Hk Er); reflexivity.
    + destruct (Ascii.eqb c' "}"); [|reflexivity].
      destruct (nth_error args k); [|reflexivity].
      rewrite format_suffix_exhausted by lia; reflexivity.
  - destruct (Ascii.eqb c "}") eqn:Ec.
    + destruct r as [|c' r']; [reflexivity|].
      cbn [String.append].
      destruct (Ascii.eqb c' "}"); [|reflexivity].
      destruct (format_aux r' [] 0) eqn:Er; [discriminate|].
      rewrite (IH (String.length r') ltac:(simpl in *; lia) r' eq_refl k Hk Er); reflexivity.
    + destruct (format_aux r [] 0) eqn:Er; [discriminate|].
      rewrite (IH (String.length r) ltac:(simpl in *; lia) r eq_refl k Hk Er); reflexivity.
Qed.

Lemma format_no_braces (s : string) :
  char_in "{" s = false -> char_in "}" s = false -> format_aux s [] 0 = Some s.
Proof.
  induction s as [|c s IH]; intros Ho Hc; [reflexivity|].
  cbn [char_in] in Ho, Hc; apply orb_false_iff in Ho as [Ho Ho']; apply orb_false_iff in Hc as [Hc Hc'].
  rewrite Ascii.eqb_sym in Ho, Hc.
  cbn [format_aux]; rewrite Ho, Hc, IH by assumption; reflexivity.
Qed.

Lemma char_in_rstrip (c : ascii) (s : string) :
  char_in c (rstrip_slash s) = true -> char_in c s = true.
Proof.
  induction s as [|c' s IH]; cbn [rstrip_slash]; [discriminate|].
  destruct (String.eqb (rstrip_slash s) EmptyString && Ascii.eqb c' "/"); [discriminate|].
  cbn [char_in]; intros H; apply orb_true_iff in H as [H|H]; apply orb_true_iff; [left|right; apply IH]; exact H.
Qed.

(** The output name is the directory name, read as a format string
    without arguments, followed by [_ch{i}.jpg]; it raises exactly when
    that reading raises. *)
Lemma montage_basename_format (montage_path : string) (i : nat) :
  all_slash montage_path = false ->
  montage_basename montage_path i =
  option_map (fun u => (u ++ "_ch" ++ str_nat i ++ ".jpg")%string)
             (str_format (rstrip_slash montage_path) []).
Proof.
  intros Hp; unfold montage_basename, str_format.
  rewrite dirname_join by exact Hp; fold ch_suffix.
  destruct (format_aux (rstrip_slash montage_path) [] 0) as [u|] eqn:E.
  - rewrite (format_lit_app _ _ u [str_nat i] 0 E); reflexivity.
  - apply format_fail_app; [simpl; lia|exact E].
Qed.

(** [save_montage] names the image of channel i after the montage
    directory itself (for a path that is not made of slashes only): the
    path with its trailing slashes removed, read as a format string, so
    that [{{] and [}}] become single braces and any other brace makes
    [str.format] raise, followed by ["_ch{i}.jpg"].  For a path without
    braces that is the path itself; a trailing slash on the path does not
    change the name, and different channels get different names. *)
Theorem save_montage_basename (montage_path : string) :
  all_slash montage_path = false ->
  (forall i, montage_basename montage_path i =
             option_map (fun u => (u ++ "_ch" ++ str_nat i ++ ".jpg")%string)
                        (str_format (rstrip_slash montage_path) [])) /\
  (char_in "{" montage_path = false -> char_in "}" montage_path = false ->
   forall i, montage_basename montage_path i =
             Some (rstrip_slash montage_path ++ "_ch" ++ str_nat i ++ ".jpg")%string) /\
  montage_basename (montage_path ++ "/") = montage_basename montage_path /\
  (forall i j name, montage_basename montage_path i = Some name ->
                    montage_basename montage_path j = Some name -> i = j).
Proof.
  intros Hp.
  pose proof (montage_basename_format montage_path) as E.
  split; [intros i; exact (E i Hp)|split; [|split]].
  - intros Ho Hc i; rewrite (E i Hp); unfold str_format.
    rewrite format_no_braces; [reflexivity| |];
      (destruct (char_in _ (rstrip_slash montage_path)) eqn:H; [|reflexivity]);
      apply char_in_rstrip in H; congruence.
  - assert (Hp' : all_slash (montage_path ++ "/") = false) by (rewrite all_slash_snoc; exact Hp).
    unfold montage_basename; rewrite !dirname_join by assumption.
    rewrite rstrip_slash_snoc_slash; reflexivity.
  - intros i j name Hi Hj; rewrite (E i Hp) in Hi; rewrite (E j Hp) in Hj.
    destruct (str_format (rstrip_slash montage_path) []) as [u|]; [|discriminate].
    simpl in Hi, Hj; rewrite <- Hj in Hi; injection Hi as H.
    apply string_app_inv_head in H; simpl in H; injection H as H.
    apply str_nat_inj, (string_app_inv_tail _ _ ".jpg"), H.
Qed.

Lemma save_montage_basename_witness :
  all_slash "data/m{{1}}" = false /\
  montage_basename "data/m{{1}}" 3 = Some "data/m{1}_ch3.jpg"%string /\
  montage_basename "data/m1/" 3 = Some "data/m1_ch3.jpg"%string /\
  montage_basename "data/scan{1}" 3 = None.
Proof.
  split; [reflexivity|split; [|split]].
  - rewrite (proj1 (save_montage_basename "data/m{{1}}" eq_refl) 3); reflexivity.
  - change "data/m1/"%string with ("data/m1" ++ "/")%string.
    rewrite (proj1 (proj2 (proj2 (save_montage_basename "data/m1" eq_refl)))).
    rewrite (proj1 (proj2 (save_montage_basename "data/m1" eq_refl)) eq_refl eq_refl 3).
    reflexivity.
  - rewrite (proj1 (save_montage_basename "data/scan{1}" eq_refl) 3); reflexivity.
Defined.

Lemma str_length_app a b : String.length (a ++ b) = String.length a + String.length b.
Proof. induction a; simpl; auto. Qed.

Lemma str_drop_app_le k a b :
  k <= String.length a -> str_drop k (a ++ b) = (str_drop k a ++ b)%string.
Proof.
  revert a; induction k as [|k IH]; intros [|c a] H; simpl in *; auto; [lia|].
  apply IH; lia.
Qed.

Lemma str_drop_app_ge k a b :
  String.length a <= k -> str_drop k (a ++ b) = str_drop (k - String.length a) b.
Proof.
  revert k; induction a as [|c a IH]; intros k H; simpl in *.
  - rewrite Nat.sub_0_r; reflexivity.
  - destruct k; [lia|]; apply IH; lia.
Qed.

Lemma str_drop_nonempty k a :
  k < String.length a -> exists c w, str_drop k a = String c w /\ char_in c a = true.
Proof.
  revert a; induction k as [|k IH]; intros [|c a] H; simpl in *; try lia.
  - exists c, a; rewrite Ascii.eqb_refl; auto.
  - destruct (IH a ltac:(lia)) as (c' & w & E & Hc); exists c', w.
    rewrite Hc, orb_true_r; auto.
Qed.

Lemma prefix_drop_contains n h k :
  String.prefix n (str_drop k h) = true -> str_contains n h = true.
Proof.
  revert k; induction h as [|c h IH]; intros k H.
  - destruct k; simpl in H; destruct n; simpl in *; auto.
  - destruct k; simpl in *; [rewrite H; reflexivity|].
    rewrite (IH k H), orb_true_r; reflexivity.
Qed.

Lemma prefix_app_sep old u c v :
  char_in c old = false ->
  String.prefix old (u ++ String c v) = true -> String.prefix old u = true.
Proof.
  revert old; induction u as [|x u IH]; intros [|o old] Hc H; simpl in *; auto.
  - destruct (ascii_dec o c); [subst; rewrite Ascii.eqb_refl in Hc; discriminate|discriminate].
  - destruct (ascii_dec o x); [|discriminate].
    apply IH; [|exact H].
    destruct (Ascii.eqb c o); [discriminate|exact Hc].
Qed.

Lemma prefix_cons_neq a b s1 s2 :
  a <> b -> String.prefix (String a s1) (String b s2) = false.
Proof. intros H; simpl; destruct (ascii_dec a b); congruence. Qed.

Lemma uint_no_dot d : char_in "." (uint_to_string d) = false.
Proof. induction d; simpl; auto. Qed.

Lemma replace_fuel_head old new a t f :
  (forall k, k < String.length a -> String.prefix old (str_drop k (a ++ t)) = false) ->
  replace_fuel (String.length a + f) old new (a ++ t) = (a ++ replace_fuel f old new t)%string.
Proof.
  induction a as [|c a IH]; intros H; [reflexivity|].
  pose proof (H 0 ltac:(simpl; lia)) as H0; simpl in H0 |- *; rewrite H0.
  f_equal; apply IH.
  intros k Hk; apply (H (S k)); simpl; lia.
Qed.

(** With [--tif] the saved name is the JPEG name with [".jpg"] replaced by
    [".tif"]: when the directory name formats to a text u without
    [".jpg"], the name is u followed by [_ch{i}.tif], only the extension
    changes.  ([str.replace] replaces every occurrence, so a directory
    name containing [".jpg"] would be changed as well.) *)
Theorem save_montage_tif_name (montage_path : string) (i : nat) (u : string) :
  all_slash montage_path = false ->
  str_format (rstrip_slash montage_path) [] = Some u ->
  str_contains ".jpg" u = false ->
  montage_tif_name montage_path i = Some (u ++ "_ch" ++ str_nat i ++ ".tif")%string.
Proof.
  intros Hp Hu Hr.
  unfold montage_tif_name; rewrite (montage_basename_format montage_path i Hp), Hu.
  cbn [option_map]; f_equal.
  set (r := u) in *.
  set (d := str_nat i).
  replace (r ++ "_ch" ++ d ++ ".jpg")%string with ((r ++ "_ch" ++ d) ++ ".jpg")%string
    by (rewrite <- !append_assoc_str; reflexivity).
  unfold str_replace.
  rewrite str_length_app.
  rewrite replace_fuel_head.
  - rewrite <- !append_assoc_str; reflexivity.
  - intros k Hk; rewrite str_length_app in Hk.
    destruct (Nat.lt_ge_cases k (String.length r)) as [Hlt|Hge].
    + rewrite <- append_assoc_str, str_drop_app_le by lia.
      destruct (String.prefix _ _) eqn:P; [|reflexivity].
      apply (prefix_app_sep _ _ "_" (("ch" ++ d) ++ ".jpg")) in P; [|reflexivity].
      apply prefix_drop_contains in P; congruence.
    + rewrite <- append_assoc_str, str_drop_app_ge by lia.
      remember (k - String.length r) as k' eqn:Hk'.
      assert (k' < 3 + String.length d) by (simpl in Hk; lia).
      destruct k' as [|[|[|m]]]; try reflexivity.
      simpl str_drop.
      rewrite str_drop_app_le by (simpl in *; lia).
      destruct (str_drop_nonempty m d ltac:(simpl in *; lia)) as (c & w & Ew & Hc).
      rewrite Ew; apply prefix_cons_neq; intros <-.
      unfold d, str_nat in Hc; rewrite uint_no_dot in Hc; discriminate.
Qed.

Lemma save_montage_tif_name_witness :
  all_slash "data/m1" = false /\ str_format "data/m1" [] = Some "data/m1"%string /\
  str_contains ".jpg" "data/m1" = false /\
  montage_tif_name "data/m1" 2 = Some "data/m1_ch2.tif"%string.
Proof.
  split; [reflexivity|split; [reflexivity|split; [reflexivity|]]].
  apply (save_montage_tif_name "data/m1" 2 "data/m1"); reflexivity.
Defined.
